(** * Vulkan texture cache of core/rend/vulkan/texture.h

    A shallow embedding of [Texture], [SamplerManager] and [TextureCache]
    and the properties of the deferred-destruction ring ("trash bins"),
    the in-flight sets and the sampler memo table; then
    [FramebufferAttachment] and the game scanner of
    core/rend/game_scanner.h (sorted insertion and the directory scan). *)

From stdpp Require Import base option list strings gmap sets.
From Stdlib Require Import ZArith Lia.

Local Open Scope Z_scope.
Set Warnings "-clear-no-such-hyp".

(** ** Machine integers *)

(** [u32] conversion: the value of an integer expression stored in, or
    computed at, type [u32]. *)
Definition to_u32 (z : Z) : Z := z mod 2 ^ 32.

(** ** Vulkan objects *)

(** A non-null Vulkan handle. [vk::Image], [vk::ImageView], ... are
    nullable: they are embedded as [option handle], [None] being
    [VK_NULL_HANDLE]. The same embedding serves the owning wrappers
    ([vk::UniqueImage], [std::unique_ptr<BufferData>], [Allocation]):
    moving out of one leaves [None] behind. *)
Definition handle := positive.

(** [Texture *]: the address of a texture object. *)
Definition ptr := positive.

(** [vk::Format], by its numeric value; [vk::Format::eUndefined] is 0. *)
Definition Format := Z.
Definition eUndefined : Format := 0.

Record Extent2D := mkExtent2D { width : Z; height : Z }.

#[global] Instance Extent2D_eq_dec : EqDecision Extent2D.
Proof. solve_decision. Defined.

(** What the device is asked to release when an owning wrapper is
    destroyed while it holds a handle. *)
Inductive Resource :=
  | ResImageView (h : handle)
  | ResImage (h : handle)
  | ResMem (h : handle)
  | ResBuffer (h : handle).

#[global] Instance Resource_eq_dec : EqDecision Resource.
Proof. solve_decision. Defined.

(** Destruction of a container of owning wrappers: every non-null
    element is released, in order. *)
Definition destroy_all (mk : handle → Resource) (v : list (option handle))
  : list Resource :=
  omap (λ o, mk <$> o) v.

(** ** class Texture *)

(** The data members of [Texture] that the cache reads or writes
    ([commandBuffer], [physicalDevice] and [device] are set once and
    play no role in the cache's bookkeeping). *)
Record Texture := mkTexture {
  format : Format;
  extent : Extent2D;
  mipmapLevels : Z;
  needsStaging : bool;
  stagingBufferData : option handle;
  allocation : option handle;
  image : option handle;
  imageView : option handle;
  readOnlyImageView : option handle;
}.

(** [Texture::GetImageView], [Texture::GetImage] *)
Definition GetImageView (t : Texture) : option handle := imageView t.
Definition GetImage (t : Texture) : option handle := image t.

(** [Texture::GetReadOnlyImageView] *)
Definition GetReadOnlyImageView (t : Texture) : option handle :=
  match readOnlyImageView t with
  | Some v => Some v
  | None => imageView t
  end.

(** [Texture::getSize] *)
Definition getSize (t : Texture) : Extent2D := extent t.

(** The body of the lambda of [SetCurrentIndex]:
    [texture->readOnlyImageView = vk::ImageView()]. *)
Definition reset_readOnlyImageView (t : Texture) : Texture :=
  mkTexture (format t) (extent t) (mipmapLevels t) (needsStaging t)
            (stagingBufferData t) (allocation t) (image t) (imageView t)
            None.

(** The texture left behind by [DestroyLater]: [image], [imageView],
    [allocation] and [stagingBufferData] have been moved from, and
    [format] is reset. *)
Definition moved_out (t : Texture) : Texture :=
  mkTexture eUndefined (extent t) (mipmapLevels t) (needsStaging t)
            None None None None (readOnlyImageView t).

(** The implicit destructor of [Texture]: owning members are destroyed
    in reverse order of declaration. *)
Definition Texture_dtor (t : Texture) : list Resource :=
  destroy_all ResImageView [imageView t] ++ destroy_all ResImage [image t]
  ++ destroy_all ResMem [allocation t]
  ++ destroy_all ResBuffer [stagingBufferData t].

(** ** class TextureCache *)

(** The state the methods of [TextureCache] act on: its data members,
    the memory holding the [Texture] objects its pointers refer to
    ([objects]), the descriptor-keyed table inherited from
    [BaseTextureCache<Texture>] ([cache]), and the log of the resources
    released on the device so far ([released], oldest first). *)
Record TextureCache := mkTextureCache {
  objects : gmap ptr Texture;
  cache : gmap Z ptr;
  inFlightTextures : list (gset ptr);
  trashedImageViews : list (list (option handle));
  trashedImages : list (list (option handle));
  trashedMem : list (list (option handle));
  trashedBuffers : list (list (option handle));
  currentIndex : Z;
  released : list Resource;
}.

(** A freshly constructed cache: empty vectors, [currentIndex = 0]. *)
Definition TextureCache_new (objs : gmap ptr Texture) : TextureCache :=
  mkTextureCache objs ∅ [] [] [] [] [] 0 [].

(** [TextureCache::EmptyTrash], for the vector [v] and the value [e] of
    an empty element: returns the vector afterwards and the element that
    [clear()] emptied. [currentIndex + 1] is computed at type [u32];
    [v[currentIndex]] past the end is an error. *)
Definition EmptyTrash {T : Type} (e : T) (currentIndex : Z) (v : list T)
  : option (list T * T) :=
  let v1 :=
    if Z.of_nat (length v) <? to_u32 (currentIndex + 1)
    then resize (Z.to_nat (to_u32 (currentIndex + 1))) e v
    else v in
  old ← v1 !! Z.to_nat currentIndex;
  Some (<[Z.to_nat currentIndex := e]> v1, old).

(** The [std::for_each] of [SetCurrentIndex] over the textures of a set:
    each pointer is dereferenced and written through. *)
Definition reset_views (s : gset ptr) (objs : gmap ptr Texture)
  : option (gmap ptr Texture) :=
  foldr (λ p acc, m ← acc; t ← m !! p;
                  Some (<[p := reset_readOnlyImageView t]> m))
        (Some objs) (elements s).

(** The first statement of [SetCurrentIndex]: the alias views of the
    textures in flight in the slot being left are reset, when that slot
    is within the vector. *)
Definition vacate (st : TextureCache) : option (gmap ptr Texture) :=
  if currentIndex st <? Z.of_nat (length (inFlightTextures st))
  then s ← inFlightTextures st !! Z.to_nat (currentIndex st);
       reset_views s (objects st)
  else Some (objects st).

(** [TextureCache::SetCurrentIndex] *)
Definition SetCurrentIndex (index : Z) (st : TextureCache)
  : option TextureCache :=
  objs ← vacate st;
  let cur := to_u32 index in
  '(ift, _) ← EmptyTrash ∅ cur (inFlightTextures st);
  '(tiv, d1) ← EmptyTrash [] cur (trashedImageViews st);
  '(ti, d2) ← EmptyTrash [] cur (trashedImages st);
  '(tm, d3) ← EmptyTrash [] cur (trashedMem st);
  '(tb, d4) ← EmptyTrash [] cur (trashedBuffers st);
  Some (mkTextureCache objs (cache st) ift tiv ti tm tb cur
          (released st ++ destroy_all ResImageView d1
             ++ destroy_all ResImage d2 ++ destroy_all ResMem d3
             ++ destroy_all ResBuffer d4)).

(** [TextureCache::IsInFlight]: the loop over [inFlightTextures], [i]
    being the index of the first set of [sets]. (The vector is only ever
    resized to a [u32] value, so the [u32] counter of the loop reaches
    its size.) *)
Fixpoint IsInFlight_loop (i : nat) (sets : list (gset ptr)) (cur : Z)
    (texture : ptr) : bool :=
  match sets with
  | [] => false
  | s :: rest =>
      if bool_decide (Z.of_nat i ≠ cur) && bool_decide (texture ∈ s)
      then true
      else IsInFlight_loop (S i) rest cur texture
  end.

Definition IsInFlight (texture : ptr) (st : TextureCache) : bool :=
  IsInFlight_loop 0 (inFlightTextures st) (currentIndex st) texture.

(** [TextureCache::SetInFlight] *)
Definition SetInFlight (texture : ptr) (st : TextureCache)
  : option TextureCache :=
  s ← inFlightTextures st !! Z.to_nat (currentIndex st);
  Some (mkTextureCache (objects st) (cache st)
          (<[Z.to_nat (currentIndex st) := {[texture]} ∪ s]>
             (inFlightTextures st))
          (trashedImageViews st) (trashedImages st) (trashedMem st)
          (trashedBuffers st) (currentIndex st) (released st)).

(** [v[i].push_back(x)] *)
Definition push_back_at {T : Type} (i : Z) (x : T) (v : list (list T))
  : option (list (list T)) :=
  bin ← v !! Z.to_nat i;
  Some (<[Z.to_nat i := bin ++ [x]]> v).

(** [TextureCache::DestroyLater] *)
Definition DestroyLater (texture : ptr) (st : TextureCache)
  : option TextureCache :=
  t ← objects st !! texture;
  match image t with
  | None => Some st
  | Some _ =>
      ti ← push_back_at (currentIndex st) (image t) (trashedImages st);
      tiv ← push_back_at (currentIndex st) (imageView t)
              (trashedImageViews st);
      tm ← push_back_at (currentIndex st) (allocation t) (trashedMem st);
      tb ← push_back_at (currentIndex st) (stagingBufferData t)
             (trashedBuffers st);
      Some (mkTextureCache (<[texture := moved_out t]> (objects st))
              (cache st) (inFlightTextures st) tiv ti tm tb
              (currentIndex st) (released st))
  end.

(** Modelled from the spec: [BaseTextureCache<Texture>::Clear], whose
    definition (rend/TexCache.h) is not among the sources; the spec says
    that clearing "drops every cache entry". The table becomes empty and
    the texture objects it owned are destroyed with it. *)
Definition BaseTextureCache_Clear (st : TextureCache) : TextureCache :=
  let owned := (map_to_list (cache st)).*2 in
  mkTextureCache (foldr delete (objects st) owned) ∅
    (inFlightTextures st) (trashedImageViews st) (trashedImages st)
    (trashedMem st) (trashedBuffers st) (currentIndex st)
    (released st
       ++ concat (omap (λ p, Texture_dtor <$> objects st !! p) owned)).

(** [TextureCache::Clear] *)
Definition Clear (st : TextureCache) : TextureCache :=
  let st0 := BaseTextureCache_Clear st in
  mkTextureCache (objects st0) (cache st0)
    ((λ _, ∅) <$> inFlightTextures st0)
    ((λ _, []) <$> trashedImageViews st0)
    ((λ _, []) <$> trashedImages st0)
    ((λ _, []) <$> trashedMem st0)
    ((λ _, []) <$> trashedBuffers st0)
    (currentIndex st0)
    (released st0
       ++ destroy_all ResImageView (concat (trashedImageViews st0))
       ++ destroy_all ResImage (concat (trashedImages st0))
       ++ destroy_all ResMem (concat (trashedMem st0))
       ++ destroy_all ResBuffer (concat (trashedBuffers st0))).

Section WithDelete.

(** [BaseTextureCacheData::Delete] is declared in rend/TexCache.h,
    which is not among the sources: it is taken as given, returning the
    texture afterwards, what it released and its result. *)
Variable Delete : Texture → Texture * list Resource * bool.

(** [TextureCache::clearTexture] *)
Definition clearTexture (tex : ptr) (st : TextureCache)
  : option (TextureCache * bool) :=
  let sets := (λ s, s ∖ {[tex]}) <$> inFlightTextures st in
  t ← objects st !! tex;
  let '(t', rel, b) := Delete t in
  Some (mkTextureCache (<[tex := t']> (objects st)) (cache st) sets
          (trashedImageViews st) (trashedImages st) (trashedMem st)
          (trashedBuffers st) (currentIndex st) (released st ++ rel),
        b).

(** The calls a client can make on the cache, and their effect on its
    state; [None] is an access past the end of a vector or through a
    pointer to no object. *)
Inductive op :=
  | OpSetCurrentIndex (index : Z)
  | OpSetInFlight (texture : ptr)
  | OpDestroyLater (texture : ptr)
  | OpClear
  | OpClearTexture (tex : ptr).

Definition step (o : op) (st : TextureCache) : option TextureCache :=
  match o with
  | OpSetCurrentIndex index => SetCurrentIndex index st
  | OpSetInFlight texture => SetInFlight texture st
  | OpDestroyLater texture => DestroyLater texture st
  | OpClear => Some (Clear st)
  | OpClearTexture tex => fst <$> clearTexture tex st
  end.

Fixpoint run (ops : list op) (st : TextureCache) : option TextureCache :=
  match ops with
  | [] => Some st
  | o :: rest => st' ← step o st; run rest st'
  end.

End WithDelete.

(** A sequence of [SetCurrentIndex] calls. *)
Fixpoint SetCurrentIndex_seq (js : list Z) (st : TextureCache)
  : option TextureCache :=
  match js with
  | [] => Some st
  | j :: rest => st' ← SetCurrentIndex j st; SetCurrentIndex_seq rest st'
  end.

(** The slots visited by [n] successive frames of a ring of depth [R]
    after slot [k]: [k+1], [k+2], ... modulo [R]. *)
Definition ring_slots (R k : Z) (n : nat) : list Z :=
  (λ i : nat, (k + Z.of_nat i) mod R) <$> seq 1 n.

(** The resources waiting in the trash bins of slot [k]. *)
Definition bin_at (v : list (list (option handle))) (k : nat)
  : list (option handle) :=
  default [] (v !! k).

Definition bin_resources (st : TextureCache) (k : nat) : list Resource :=
  destroy_all ResImageView (bin_at (trashedImageViews st) k)
  ++ destroy_all ResImage (bin_at (trashedImages st) k)
  ++ destroy_all ResMem (bin_at (trashedMem st) k)
  ++ destroy_all ResBuffer (bin_at (trashedBuffers st) k).

(** Every pointer of an in-flight set refers to an object. *)
Definition inflight_live (st : TextureCache) : Prop :=
  ∀ (i : nat) (s : gset ptr), inFlightTextures st !! i = Some s →
    s ⊆ dom (objects st).

(** [int] and [u32] values. *)
Definition is_int (z : Z) : Prop := - 2 ^ 31 ≤ z < 2 ^ 31.
Definition is_u32 (z : Z) : Prop := 0 ≤ z < 2 ^ 32.

(** ** Texture::UploadToGPU *)

(** What the graphics layer hands back when asked for a new image: the
    image, its view, its memory and, when the device cannot be written
    directly, a staging buffer. *)
Record NewImage := mkNewImage {
  new_image : handle;
  new_imageView : handle;
  new_allocation : handle;
  new_staging : option handle;
}.

Inductive Outcome := Done | ResourceExhausted.

(** [mipmapRequested ? log2(max(width,height))+1 : 1] *)
Definition mip_levels (width height : Z) (mipmapped : bool) : Z :=
  if mipmapped then Z.log2 (Z.max width height) + 1 else 1.

(** Modelled from the spec: [Texture::UploadToGPU] is declared in
    texture.h and defined in texture.cpp, which is not among the sources.
    Following section 4.1 and testable property 3 of the spec: when a GPU
    image exists with the requested extent and format it is reused;
    otherwise a new image is allocated for [width]x[height] with
    [mip_levels] levels and the old sub-resources go to the current
    slot's trash (through [DestroyLater]); when the allocation fails
    ([created = None]) the object stays as it was. [fmt] is the format
    the object's pixel format selector asks for. The pixel data lives on
    the device and is not part of the state. *)
Definition UploadToGPU (created : option NewImage) (fmt : Format)
    (width height : Z) (mipmapped mipmapsIncluded : bool)
    (texture : ptr) (st : TextureCache) : option (Outcome * TextureCache) :=
  t ← objects st !! texture;
  if bool_decide (is_Some (image t))
     && bool_decide (extent t = mkExtent2D width height)
     && bool_decide (format t = fmt)
  then Some (Done, st)
  else
    match created with
    | None => Some (ResourceExhausted, st)
    | Some n =>
        st1 ← DestroyLater texture st;
        t1 ← objects st1 !! texture;
        Some (Done,
              mkTextureCache
                (<[texture :=
                     mkTexture fmt (mkExtent2D width height)
                       (mip_levels width height mipmapped)
                       (bool_decide (is_Some (new_staging n)))
                       (new_staging n) (Some (new_allocation n))
                       (Some (new_image n)) (Some (new_imageView n))
                       (readOnlyImageView t1)]> (objects st1))
                (cache st1) (inFlightTextures st1) (trashedImageViews st1)
                (trashedImages st1) (trashedMem st1) (trashedBuffers st1)
                (currentIndex st1) (released st1))
    end.

(** ** class SamplerManager *)

Inductive Filter := Filter_eNearest | Filter_eLinear.
Inductive SamplerMipmapMode := MipmapMode_eNearest | MipmapMode_eLinear.
Inductive SamplerAddressMode := eClampToEdge | eMirroredRepeat | eRepeat.

#[global] Instance Filter_eq_dec : EqDecision Filter.
Proof. solve_decision. Defined.

(** [SamplerManager::TSP_Mask] *)
Definition TSP_Mask : Z := 0x7ef00.

(** [config::TextureFiltering] and [config::AnisotropicFiltering], as
    they stand at the time of a call. *)
Record Config := mkConfig {
  TextureFiltering : Z;
  AnisotropicFiltering : Z;
}.

(** The arguments of [vk::SamplerCreateInfo] that vary; the others are
    constants ([false], [eNever], [0.0f], [256.0f],
    [eFloatOpaqueBlack]). *)
Record SamplerCreateInfo (float : Type) := mkSamplerCreateInfo {
  magFilter : Filter;
  minFilter : Filter;
  mipmapMode : SamplerMipmapMode;
  addressModeU : SamplerAddressMode;
  addressModeV : SamplerAddressMode;
  addressModeW : SamplerAddressMode;
  mipLodBias : float;
  anisotropyEnable : bool;
  maxAnisotropy : float;
}.

(** What [SamplerManager] takes from its surroundings, none of it among
    the sources: single-precision numbers (kept abstract); the
    bit-fields of the [TSP] union read off [tsp.full] and the table
    [D_Adjust_LoD_Bias] (hw/pvr); whether the build is for [__APPLE__];
    and the Vulkan context with its device, whose state is opaque and
    whose sampler creation may fail (an exception). *)
Class SamplerEnv := {
  float : Type;
  float_of_int : Z → float;
  float_min : float → float → float;
  float_zero : float;
  MipMapD : Z → Z;
  FilterMode : Z → Z;
  ClampU : Z → Z;
  ClampV : Z → Z;
  FlipU : Z → Z;
  FlipV : Z → Z;
  D_Adjust_LoD_Bias : Z → float;
  apple : bool;
  Device : Type;
  SupportsSamplerAnisotropy : Device → bool;
  GetMaxSamplerAnisotropy : Device → float;
  createSamplerUnique :
    SamplerCreateInfo float → Device → option (handle * Device);
  destroySampler : handle → Device → Device;
}.

Section Sampler.
Context `{SamplerEnv}.

(** The [samplers] member together with the device it creates them on. *)
Record SamplerManager := mkSamplerManager {
  samplers : gmap Z handle;
  device : Device;
}.

(** [SamplerManager::term]: [samplers.clear()] destroys every sampler. *)
Definition term (sm : SamplerManager) : SamplerManager :=
  mkSamplerManager ∅
    (foldr (λ kv d, destroySampler kv.2 d) (device sm)
       (map_to_list (samplers sm))).

(** The creation parameters computed by [GetSampler] on a miss. *)
Definition sampler_info (cfg : Config) (tsp : Z) (d : Device)
  : SamplerCreateInfo float :=
  let filter :=
    if bool_decide (TextureFiltering cfg = 0) then
      if bool_decide (FilterMode tsp = 0) then Filter_eNearest
      else Filter_eLinear
    else if bool_decide (TextureFiltering cfg = 1) then Filter_eNearest
    else Filter_eLinear in
  let uRepeat :=
    if bool_decide (ClampU tsp ≠ 0) then eClampToEdge
    else if bool_decide (FlipU tsp ≠ 0) then eMirroredRepeat else eRepeat in
  let vRepeat :=
    if bool_decide (ClampV tsp ≠ 0) then eClampToEdge
    else if bool_decide (FlipV tsp ≠ 0) then eMirroredRepeat else eRepeat in
  let anisotropicFiltering :=
    bool_decide (1 < AnisotropicFiltering cfg)
    && SupportsSamplerAnisotropy d
    && bool_decide (filter = Filter_eLinear) in
  let mipLodBias :=
    if apple then float_zero else D_Adjust_LoD_Bias (MipMapD tsp) in
  let mipmapMode :=
    if bool_decide (filter = Filter_eLinear) then MipmapMode_eLinear
    else MipmapMode_eNearest in
  mkSamplerCreateInfo float filter filter mipmapMode uRepeat vRepeat
    eClampToEdge mipLodBias anisotropicFiltering
    (float_min (float_of_int (AnisotropicFiltering cfg))
       (GetMaxSamplerAnisotropy d)).

(** [SamplerManager::GetSampler]; [tsp] is [tsp.full]. *)
Definition GetSampler (cfg : Config) (tsp : Z) (sm : SamplerManager)
  : option (handle * SamplerManager) :=
  let samplerHash := Z.land tsp TSP_Mask in
  match samplers sm !! samplerHash with
  | Some h => Some (h, sm)
  | None =>
      '(h, d) ← createSamplerUnique (sampler_info cfg tsp (device sm))
                  (device sm);
      Some (h, mkSamplerManager (<[samplerHash := h]> (samplers sm)) d)
  end.

(** A sequence of [GetSampler] calls, each under its own configuration;
    the handles returned, in order. *)
Fixpoint GetSampler_seq (calls : list (Config * Z)) (sm : SamplerManager)
  : option (list handle * SamplerManager) :=
  match calls with
  | [] => Some ([], sm)
  | (cfg, tsp) :: rest =>
      '(h, sm1) ← GetSampler cfg tsp sm;
      '(hs, sm2) ← GetSampler_seq rest sm1;
      Some (h :: hs, sm2)
  end.

End Sampler.

(** A sample environment: numbers as integers, a bit-field layout that
    agrees with the comment on [TSP_Mask], and a device that hands out
    consecutive handles. *)
Definition sample_env : SamplerEnv := {|
  float := Z;
  float_of_int z := z;
  float_min := Z.min;
  float_zero := 0;
  MipMapD tsp := Z.land (Z.shiftr tsp 8) 0xf;
  FilterMode tsp := Z.land (Z.shiftr tsp 13) 3;
  ClampV tsp := Z.land (Z.shiftr tsp 15) 1;
  ClampU tsp := Z.land (Z.shiftr tsp 16) 1;
  FlipV tsp := Z.land (Z.shiftr tsp 17) 1;
  FlipU tsp := Z.land (Z.shiftr tsp 18) 1;
  D_Adjust_LoD_Bias _ := 0;
  apple := false;
  Device := positive;
  SupportsSamplerAnisotropy _ := true;
  GetMaxSamplerAnisotropy _ := 16;
  createSamplerUnique _ d := Some (d, Pos.succ d);
  destroySampler _ d := d;
|}.

(** The lengths of the five per-slot vectors. *)
Definition slot_lengths (st : TextureCache) : list nat :=
  [length (inFlightTextures st); length (trashedImageViews st);
   length (trashedImages st); length (trashedMem st);
   length (trashedBuffers st)].

(** ** Sample states *)

(** A texture holding the image [10], its view [11], its memory [12],
    the staging buffer [13] and the alias view [14]. *)
Definition sample_texture : Texture :=
  mkTexture 37 (mkExtent2D 64 32) 1 true (Some 13%positive)
    (Some 12%positive) (Some 10%positive) (Some 11%positive)
    (Some 14%positive).

(** A cache of two slots, slot 1 current, holding [sample_texture] at
    address [1], in flight in slot 1. *)
Definition sample_cache : TextureCache :=
  mkTextureCache {[1%positive := sample_texture]} {[7 := 1%positive]}
    [∅; {[1%positive]}] [[]; []] [[]; []] [[]; []] [[]; []] 1 [].

(** Every per-slot vector has an element for the current slot. *)
Definition covers (st : TextureCache) : Prop :=
  is_u32 (currentIndex st) ∧
  Forall (λ n : nat, currentIndex st < Z.of_nat n) (slot_lengths st).

(** A [Delete] that always succeeds and releases nothing. *)
Definition sample_Delete (t : Texture) : Texture * list Resource * bool :=
  (t, [], true).

(** ** Alias views across SetCurrentIndex *)

(** Between [before] and [after] the read-only alias view has been reset
    for the objects of [S] and no object outside [S] has changed. *)
Definition alias_reset_exactly (S : ptr → Prop)
    (before after : gmap ptr Texture) : Prop :=
  ∀ p, (S p → after !! p = reset_readOnlyImageView <$> before !! p)
       ∧ (¬ S p → after !! p = before !! p).

(** [p] is in flight in the slot being left (the current slot of [st]). *)
Definition in_vacated_slot (st : TextureCache) (p : ptr) : Prop :=
  p ∈ default ∅ (inFlightTextures st !! Z.to_nat (currentIndex st)).

(** [p] is in flight in some slot other than [new]. *)
Definition in_other_slot (new : Z) (st : TextureCache) (p : ptr) : Prop :=
  ∃ (i : nat) (s : gset ptr),
    inFlightTextures st !! i = Some s ∧ Z.of_nat i ≠ new ∧ p ∈ s.

(** A cache with a single slot, in which [sample_texture] is in flight;
    it is what [SetCurrentIndex 0] followed by [SetInFlight] make of a
    freshly constructed cache. *)
Definition single_slot_cache : TextureCache :=
  mkTextureCache {[1%positive := sample_texture]} ∅
    [{[1%positive]}] [[]] [[]] [[]] [[]] 0 [].

(** A manager without samplers on the sample device. *)
Definition sample_manager : @SamplerManager sample_env :=
  @mkSamplerManager sample_env ∅ 1%positive.

(** What a successful allocation returns, without staging buffer. *)
Definition sample_new_image : NewImage :=
  mkNewImage 20%positive 21%positive 22%positive None.

(** ** Where the resources are *)

(** The resources waiting in the trash, over all slots. *)
Definition pending (st : TextureCache) : list Resource :=
  destroy_all ResImageView (concat (trashedImageViews st))
  ++ destroy_all ResImage (concat (trashedImages st))
  ++ destroy_all ResMem (concat (trashedMem st))
  ++ destroy_all ResBuffer (concat (trashedBuffers st)).

(** The resources the texture objects hold. *)
Definition owned (st : TextureCache) : list Resource :=
  concat (map_to_list (Texture_dtor <$> objects st)).*2.

(** Every resource the state knows of: released, waiting or held. *)
Definition all_resources (st : TextureCache) : list Resource :=
  released st ++ pending st ++ owned st.

(** The calls of the deferred-destruction cycle. *)
Definition ring_op (o : op) : Prop :=
  match o with
  | OpSetCurrentIndex _ | OpSetInFlight _ | OpDestroyLater _ => True
  | OpClear | OpClearTexture _ => False
  end.

(** The five per-slot vectors have one length, and in every slot the
    four trash bins hold the same number of entries (the [i]-th entries
    come from one texture). *)
Definition aligned (st : TextureCache) : Prop :=
  slot_lengths st = replicate 5 (length (inFlightTextures st)) ∧
  ∀ k : nat,
    length (bin_at (trashedImageViews st) k)
      = length (bin_at (trashedImages st) k)
    ∧ length (bin_at (trashedMem st) k)
      = length (bin_at (trashedImages st) k)
    ∧ length (bin_at (trashedBuffers st) k)
      = length (bin_at (trashedImages st) k).

(** ** Sampler keys *)

(** The values [tsp.full & TSP_Mask] can take: four bits from bit 8 and
    six bits from bit 13. *)
Definition possible_hashes : list Z :=
  a ← seqZ 0 16; b ← seqZ 0 64; [Z.lor (Z.shiftl a 8) (Z.shiftl b 13)].

(** The six bit-fields [GetSampler] reads lie under [TSP_Mask], as the
    comment on the computation of [samplerHash] says. *)
Definition masked_fields `{SamplerEnv} : Prop :=
  ∀ tsp,
    MipMapD (Z.land tsp TSP_Mask) = MipMapD tsp
    ∧ FilterMode (Z.land tsp TSP_Mask) = FilterMode tsp
    ∧ ClampU (Z.land tsp TSP_Mask) = ClampU tsp
    ∧ ClampV (Z.land tsp TSP_Mask) = ClampV tsp
    ∧ FlipU (Z.land tsp TSP_Mask) = FlipU tsp
    ∧ FlipV (Z.land tsp TSP_Mask) = FlipV tsp.

(** * Game scanner of core/rend/game_scanner.h *)

Module GameScanner.
Local Open Scope nat_scope.

(** [struct GameMedia] *)
Record GameMedia := mkGameMedia {
  name : string;
  path : string;
  fileName : string;
  gameName : string;
}.

(** [operator<(const GameMedia&, const GameMedia&)]: the names are
    compared as [std::string]s, byte by byte. *)
Definition GameMedia_lt (left right : GameMedia) : bool :=
  String.ltb (name left) (name right).

(** [std::upper_bound(v.begin(), v.end(), val)], as an index into [v]:
    the binary search of the standard library, [fuel] bounding the number
    of halvings of [len]. *)
Fixpoint upper_bound_loop (fuel : nat) (v : list GameMedia)
    (val : GameMedia) (first len : nat) : nat :=
  match fuel with
  | O => first
  | S fuel' =>
      if decide (len = 0) then first
      else
        let half := len / 2 in
        let middle := first + half in
        match v !! middle with
        | Some m =>
            if GameMedia_lt val m
            then upper_bound_loop fuel' v val first half
            else upper_bound_loop fuel' v val (middle + 1) (len - half - 1)
        | None => first
        end
  end.

Definition upper_bound (v : list GameMedia) (val : GameMedia) : nat :=
  upper_bound_loop (length v) v val 0 (length v).

(** [v.insert(v.begin() + pos, x)] *)
Definition vector_insert (pos : nat) (x : GameMedia) (v : list GameMedia)
  : list GameMedia :=
  take pos v ++ x :: drop pos v.

(** The body of [insert_game] and of [insert_arcade_game], on the list
    they work on. *)
Definition insert_sorted (game : GameMedia) (v : list GameMedia)
  : list GameMedia :=
  vector_insert (upper_bound v game) game v.

(** [hostfs::FileInfo], as far as the scanner reads it. *)
Record FileInfo := mkFileInfo {
  fi_name : string;
  fi_path : string;
}.

(** The data members of [GameScanner] the directory scan works on;
    [arcade_games] maps a rom name to the [description] of its [Game]. *)
Record Scanner := mkScanner {
  game_list : list GameMedia;
  arcade_game_list : list GameMedia;
  arcade_games : gmap string string;
  arcade_gdroms : gset string;
  empty_folders_scanned : Z;
  content_path_looks_incorrect : bool;
}.

(** [GameScanner::insert_game], [GameScanner::insert_arcade_game] *)
Definition insert_game (game : GameMedia) (s : Scanner) : Scanner :=
  mkScanner (insert_sorted game (game_list s)) (arcade_game_list s)
    (arcade_games s) (arcade_gdroms s) (empty_folders_scanned s)
    (content_path_looks_incorrect s).

Definition insert_arcade_game (game : GameMedia) (s : Scanner) : Scanner :=
  mkScanner (game_list s) (insert_sorted game (arcade_game_list s))
    (arcade_games s) (arcade_gdroms s) (empty_folders_scanned s)
    (content_path_looks_incorrect s).

(** [std::string::npos], for a 64-bit [size_t]. *)
Definition npos : N := (2 ^ 64 - 1)%N.

(** What the scan takes from stdclass.h and cfg/option.h, which are not
    among the sources. *)
Class ScannerEnv := {
  get_last_slash_pos : string → N;
  get_file_basename : string → string;
  get_file_extension : string → string;
  string_tolower : string → string;
  HideLegacyNaomiRoms : bool;
}.

Section Scan.
Context `{ScannerEnv}.

(** The first part of the loop body of [add_game_directory]: the count
    of folders seen while no game has been found. [emptyParentPath] is
    the local variable of that name. *)
Definition count_empty_folder (item : FileInfo) (st : Scanner * string)
  : Scanner * string :=
  let '(s, emptyParentPath) := st in
  match game_list s with
  | [] =>
      let slash := get_last_slash_pos (fi_path item) in
      let parentPath :=
        if bool_decide (slash ≠ 0%N ∧ slash ≠ npos)
        then String.substring 0 (N.to_nat slash) (fi_path item)
        else fi_path item in
      if bool_decide (parentPath ≠ emptyParentPath) then
        let n := to_u32 (empty_folders_scanned s + 1) in
        (mkScanner (game_list s) (arcade_game_list s) (arcade_games s)
           (arcade_gdroms s) n
           (if bool_decide (1000 < n)%Z then true
            else content_path_looks_incorrect s),
         parentPath)
      else st
  | _ :: _ =>
      (mkScanner (game_list s) (arcade_game_list s) (arcade_games s)
         (arcade_gdroms s) (empty_folders_scanned s) false,
       emptyParentPath)
  end.

(** The rest of the loop body: what becomes of the file. *)
Definition classify (item : FileInfo) (s : Scanner) : Scanner :=
  if bool_decide (String.substring 0 2 (fi_name item) = "._") then s
  else
    let fileName := fi_name item in
    let gameName := get_file_basename (fi_name item) in
    let extension := get_file_extension (fi_name item) in
    if bool_decide (extension = "zip" ∨ extension = "7z") then
      match arcade_games s !! string_tolower gameName with
      | None => s
      | Some description =>
          insert_arcade_game
            (mkGameMedia (fileName +:+ " (" +:+ description +:+ ")")
               (fi_path item) (fi_name item) description) s
      end
    else if bool_decide (extension = "bin" ∨ extension = "lst"
                         ∨ extension = "dat") then
      if HideLegacyNaomiRoms then s
      else insert_arcade_game
             (mkGameMedia fileName (fi_path item) (fi_name item) gameName) s
    else if bool_decide (extension = "chd" ∨ extension = "gdi") then
      if bool_decide (string_tolower gameName ∈ arcade_gdroms s) then s
      else insert_game
             (mkGameMedia fileName (fi_path item) (fi_name item) gameName) s
    else if bool_decide (extension ≠ "cdi" ∧ extension ≠ "cue") then s
    else insert_game
           (mkGameMedia fileName (fi_path item) (fi_name item) gameName) s.

Definition scan_item (st : Scanner * string) (item : FileInfo)
  : Scanner * string :=
  let '(s, emptyParentPath) := count_empty_folder item st in
  (classify item s, emptyParentPath).

(** [GameScanner::add_game_directory] over the files [items] of the
    tree. The loop leaves as soon as it reads [running] false (another
    thread clears it), or when the tree throws: it handles the first
    [n] files, for some [n]. *)
Definition add_game_directory (n : nat) (items : list FileInfo)
    (s : Scanner) : Scanner :=
  (foldl scan_item (s, EmptyString) (take n items)).1.




End Scan.

(** The list is in order for [operator<]: no element is less than one
    before it. *)
Definition sorted_by_name (v : list GameMedia) : Prop :=
  ∀ (i j : nat) a b, i < j → v !! i = Some a → v !! j = Some b →
    GameMedia_lt b a = false.

End GameScanner.

Section GameScanner_entries.
Import GameScanner.
Context `{ScannerEnv}.

(** [g] is the entry the scan makes for the disc image [item]. *)
Definition game_entry (s : Scanner) (item : FileInfo) (g : GameMedia)
  : Prop :=
  String.substring 0 2 (fi_name item) ≠ "._" ∧
  g = mkGameMedia (fi_name item) (fi_path item) (fi_name item)
        (get_file_basename (fi_name item)) ∧
  let extension := get_file_extension (fi_name item) in
  ((extension = "chd" ∨ extension = "gdi")
   ∧ string_tolower (get_file_basename (fi_name item)) ∉ arcade_gdroms s)
  ∨ extension = "cdi" ∨ extension = "cue".

(** [g] is the entry the scan makes for the arcade rom [item]. *)
Definition arcade_entry (s : Scanner) (item : FileInfo) (g : GameMedia)
  : Prop :=
  String.substring 0 2 (fi_name item) ≠ "._" ∧
  let extension := get_file_extension (fi_name item) in
  ((extension = "zip" ∨ extension = "7z")
   ∧ ∃ description,
       arcade_games s !! string_tolower (get_file_basename (fi_name item))
       = Some description
       ∧ g = mkGameMedia (fi_name item +:+ " (" +:+ description +:+ ")")
               (fi_path item) (fi_name item) description)
  ∨ ((extension = "bin" ∨ extension = "lst" ∨ extension = "dat")
     ∧ HideLegacyNaomiRoms = false
     ∧ g = mkGameMedia (fi_name item) (fi_path item) (fi_name item)
             (get_file_basename (fi_name item))).

(** [item] is a disc image by its extension. *)
Definition disc_image (item : FileInfo) : Prop :=
  get_file_extension (fi_name item) ∈ ["chd"; "gdi"; "cdi"; "cue"].


End GameScanner_entries.

(** Sample data for the scanner: file names cut at the last dot, no
    case folding, the last slash found by a fixed answer. *)
Definition sample_scanner_env : GameScanner.ScannerEnv := {|
  GameScanner.get_last_slash_pos _ := 5%N;
  GameScanner.get_file_basename n :=
    String.substring 0 (String.length n - 4) n;
  GameScanner.get_file_extension n :=
    String.substring (String.length n - 3) 3 n;
  GameScanner.string_tolower n := n;
  GameScanner.HideLegacyNaomiRoms := false;
|}.

Definition sample_games : list GameScanner.GameMedia :=
  [GameScanner.mkGameMedia "Alpha.cdi" "/roms/Alpha.cdi" "Alpha.cdi" "Alpha";
   GameScanner.mkGameMedia "Gamma.gdi" "/roms/Gamma.gdi" "Gamma.gdi" "Gamma"].

Definition sample_game : GameScanner.GameMedia :=
  GameScanner.mkGameMedia "Beta.chd" "/roms/Beta.chd" "Beta.chd" "Beta".

Definition sample_scanner : GameScanner.Scanner :=
  GameScanner.mkScanner [] [] {[ "mvsc2" := "Marvel vs. Capcom 2" ]} ∅ 0
    false.

Definition sample_items : list GameScanner.FileInfo :=
  [GameScanner.mkFileInfo "._junk.cdi" "/roms/._junk.cdi";
   GameScanner.mkFileInfo "mvsc2.zip" "/roms/mvsc2.zip";
   GameScanner.mkFileInfo "Gamma.gdi" "/roms/Gamma.gdi";
   GameScanner.mkFileInfo "Alpha.cdi" "/roms/Alpha.cdi";
   GameScanner.mkFileInfo "notes.txt" "/roms/notes.txt"].

(** * class FramebufferAttachment *)

Module FramebufferAttachment.

(** The data members ([physicalDevice] and [device] are set once). *)
Record t := mk {
  format : Format;
  extent : Extent2D;
  stagingBufferData : option handle;
  allocation : option handle;
  image : option handle;
  imageView : option handle;
  stencilView : option handle;
}.

(** [FramebufferAttachment::Reset]: [image.reset(); imageView.reset();],
    with what the two calls release, in that order. *)
Definition Reset (fa : t) : t * list Resource :=
  (mk (format fa) (extent fa) (stagingBufferData fa) (allocation fa)
      None None (stencilView fa),
   destroy_all ResImage [image fa] ++ destroy_all ResImageView [imageView fa]).

Definition GetImageView (fa : t) : option handle := imageView fa.
Definition GetImage (fa : t) : option handle := image fa.
Definition GetBufferData (fa : t) : option handle := stagingBufferData fa.
Definition GetStencilView (fa : t) : option handle := stencilView fa.
Definition getExtent (fa : t) : Extent2D := extent fa.

End FramebufferAttachment.

(** * Properties *)

(** ** Machine integers *)

Lemma to_u32_range z : 0 ≤ to_u32 z < 2 ^ 32.
Proof. unfold to_u32. apply Z.mod_pos_bound. lia. Qed.

Lemma to_u32_small z : 0 ≤ z < 2 ^ 32 → to_u32 z = z.
Proof. intros H. unfold to_u32. by apply Z.mod_small. Qed.

Lemma to_u32_nonneg_int z : is_int z → 0 ≤ z → to_u32 z = z.
Proof. unfold is_int. intros H1 H2. apply to_u32_small. lia. Qed.

Lemma to_u32_neg_int z : is_int z → z < 0 → to_u32 z = z + 2 ^ 32.
Proof.
  unfold is_int, to_u32. intros H1 H2.
  symmetry. apply (Z.mod_unique_pos z (2 ^ 32) (-1) (z + 2 ^ 32)); lia.
Qed.

Lemma to_u32_ge_int z : is_int z → z ≤ to_u32 z.
Proof.
  intros H. destruct (Z_lt_le_dec z 0).
  - rewrite to_u32_neg_int by done. lia.
  - rewrite to_u32_nonneg_int by done. lia.
Qed.

(** ** EmptyTrash *)

Section EmptyTrash_facts.
Context {T : Type} (e : T).
Implicit Types (v : list T) (cur : Z).

(** When [EmptyTrash] returns, the vector covers [cur], is no shorter
    than before, has the empty element at [cur] and its old elements
    elsewhere; what was emptied is the old element at [cur]. *)
Lemma EmptyTrash_inv cur v v' old :
  0 ≤ cur → EmptyTrash e cur v = Some (v', old) →
  (length v ≤ length v')%nat ∧ cur < Z.of_nat (length v') ∧
  v' !! Z.to_nat cur = Some e ∧ old = default e (v !! Z.to_nat cur) ∧
  ∀ i : nat, i ≠ Z.to_nat cur →
    default e (v' !! i) = default e (v !! i) ∧
    ((i < length v)%nat → v' !! i = v !! i).
Proof.
  intros Hcur. unfold EmptyTrash.
  set (n := to_u32 (cur + 1)).
  destruct (Z.ltb_spec (Z.of_nat (length v)) n) as [Hlt|Hge]; simpl.
  - destruct (resize (Z.to_nat n) e v !! Z.to_nat cur) as [o|] eqn:Ho;
      simpl; [|done].
    intros [= <- <-].
    pose proof (lookup_lt_Some _ _ _ Ho) as Hlen.
    rewrite length_resize in Hlen.
    rewrite length_insert, length_resize.
    split_and!; [lia|lia| | |].
    + apply list_lookup_insert_eq. rewrite length_resize. lia.
    + destruct (decide (Z.to_nat cur < length v)%nat) as [Hin|Hout].
      * rewrite lookup_resize in Ho by lia. by rewrite Ho.
      * rewrite lookup_resize_new in Ho by lia.
        rewrite (lookup_ge_None_2 v) by lia. simpl. congruence.
    + intros i Hi. rewrite list_lookup_insert_ne by done.
      destruct (decide (i < length v)%nat) as [Hin|Hout].
      * rewrite lookup_resize by lia. done.
      * split; [|lia].
        rewrite (lookup_ge_None_2 v) by lia. simpl.
        destruct (decide (i < Z.to_nat n)%nat).
        -- by rewrite lookup_resize_new by lia.
        -- by rewrite lookup_resize_old by lia.
  - destruct (v !! Z.to_nat cur) as [o|] eqn:Ho; simpl; [|done].
    intros [= <- <-].
    pose proof (lookup_lt_Some _ _ _ Ho) as Hlen.
    rewrite length_insert.
    split_and!; [lia|lia| |done|].
    + by apply list_lookup_insert_eq.
    + intros i Hi. by rewrite list_lookup_insert_ne by done.
Qed.

(** [EmptyTrash] returns for every index but [0xFFFFFFFF], where
    [currentIndex + 1] wraps to [0]. *)
Lemma EmptyTrash_is_Some cur v :
  0 ≤ cur < 2 ^ 32 - 1 → is_Some (EmptyTrash e cur v).
Proof.
  intros Hcur. unfold EmptyTrash.
  rewrite (to_u32_small (cur + 1)) by lia.
  destruct (Z.ltb_spec (Z.of_nat (length v)) (cur + 1)) as [Hlt|Hge]; simpl.
  - destruct (lookup_lt_is_Some_2 (resize (Z.to_nat (cur + 1)) e v)
                (Z.to_nat cur)) as [o Ho].
    { rewrite length_resize. lia. }
    rewrite Ho. simpl. eauto.
  - destruct (lookup_lt_is_Some_2 v (Z.to_nat cur)) as [o Ho]; [lia|].
    rewrite Ho. simpl. eauto.
Qed.

End EmptyTrash_facts.

(** ** SetCurrentIndex *)

Lemma reset_readOnlyImageView_idemp t :
  reset_readOnlyImageView (reset_readOnlyImageView t)
  = reset_readOnlyImageView t.
Proof. done. Qed.

(** The loop over a list of pointers: it returns exactly when every
    pointer refers to an object, and then has reset the alias view of
    the listed objects and left the others alone. *)
Lemma reset_loop_lookup (l : list ptr) (objs m : gmap ptr Texture) :
  foldr (λ p acc, m ← acc; t ← m !! p;
                  Some (<[p := reset_readOnlyImageView t]> m))
        (Some objs) l = Some m →
  (∀ p, p ∈ l → is_Some (objs !! p)) ∧
  ∀ p, m !! p = if decide (p ∈ l)
                then reset_readOnlyImageView <$> objs !! p
                else objs !! p.
Proof.
  revert m. induction l as [|p0 l IH]; simpl; intros m Hm.
  - injection Hm as <-. split; [by intros p Hp%elem_of_nil|].
    intros p. destruct (decide (p ∈ [])) as [Hp%elem_of_nil|]; done.
  - destruct (foldr _ _ l) as [m'|] eqn:Hl; simpl in Hm; [|done].
    destruct (IH m' eq_refl) as [Hlive Hlook].
    destruct (m' !! p0) as [t|] eqn:Ht; simpl in Hm; [|done].
    injection Hm as <-.
    assert (is_Some (objs !! p0)) as Hp0.
    { rewrite Hlook in Ht. case_decide.
      - destruct (objs !! p0); [eauto|done].
      - eauto. }
    split.
    + intros p [->|Hp]%elem_of_cons; auto.
    + intros p. destruct (decide (p = p0)) as [->|Hne].
      * rewrite lookup_insert_eq, decide_True by left.
        rewrite Hlook in Ht. case_decide.
        -- destruct (objs !! p0) as [t0|]; simplify_eq/=. done.
        -- by rewrite Ht.
      * rewrite lookup_insert_ne by done. rewrite Hlook.
        destruct (decide (p ∈ l)).
        -- by rewrite decide_True by by right.
        -- rewrite decide_False; [done|].
           intros [?|?]%elem_of_cons; done.
Qed.

Lemma reset_loop_is_Some (l : list ptr) (objs : gmap ptr Texture) :
  (∀ p, p ∈ l → is_Some (objs !! p)) →
  is_Some (foldr (λ p acc, m ← acc; t ← m !! p;
                     Some (<[p := reset_readOnlyImageView t]> m))
             (Some objs) l).
Proof.
  induction l as [|p0 l IH]; simpl; intros Hlive; [eauto|].
  destruct IH as [m' Hm'].
  { intros p Hp. apply Hlive. by right. }
  rewrite Hm'. simpl.
  destruct (reset_loop_lookup _ _ _ Hm') as [_ Hlook].
  destruct (Hlive p0) as [t0 Ht0]; [by left|].
  specialize (Hlook p0). rewrite Ht0 in Hlook.
  destruct (m' !! p0) as [t|] eqn:Ht; simpl; [eauto|].
  case_decide; done.
Qed.

Lemma reset_views_lookup s objs m :
  reset_views s objs = Some m →
  s ⊆ dom objs ∧
  ∀ p, m !! p = if decide (p ∈ s)
                then reset_readOnlyImageView <$> objs !! p
                else objs !! p.
Proof.
  intros [Hlive Hlook]%reset_loop_lookup. split.
  - intros p Hp. apply elem_of_dom, Hlive. by apply elem_of_elements.
  - intros p. rewrite Hlook.
    destruct (decide (p ∈ s)).
    + by rewrite decide_True by by apply elem_of_elements.
    + rewrite decide_False; [done|]. by rewrite elem_of_elements.
Qed.

Lemma reset_views_is_Some s objs :
  s ⊆ dom objs → is_Some (reset_views s objs).
Proof.
  intros Hs. apply reset_loop_is_Some.
  intros p Hp%elem_of_elements. by apply elem_of_dom, Hs.
Qed.

Lemma reset_views_dom s objs m :
  reset_views s objs = Some m → dom m = dom objs.
Proof.
  intros [_ Hlook]%reset_views_lookup.
  apply set_eq. intros p. rewrite !elem_of_dom, Hlook.
  case_decide; [|done]. by rewrite fmap_is_Some.
Qed.

Lemma SetCurrentIndex_inv index st st' :
  SetCurrentIndex index st = Some st' →
  ∃ objs ift d0 tiv d1 ti d2 tm d3 tb d4,
    vacate st = Some objs ∧
    EmptyTrash ∅ (to_u32 index) (inFlightTextures st) = Some (ift, d0) ∧
    EmptyTrash [] (to_u32 index) (trashedImageViews st) = Some (tiv, d1) ∧
    EmptyTrash [] (to_u32 index) (trashedImages st) = Some (ti, d2) ∧
    EmptyTrash [] (to_u32 index) (trashedMem st) = Some (tm, d3) ∧
    EmptyTrash [] (to_u32 index) (trashedBuffers st) = Some (tb, d4) ∧
    st' = mkTextureCache objs (cache st) ift tiv ti tm tb (to_u32 index)
            (released st ++ destroy_all ResImageView d1
               ++ destroy_all ResImage d2 ++ destroy_all ResMem d3
               ++ destroy_all ResBuffer d4).
Proof.
  unfold SetCurrentIndex.
  destruct (vacate st) as [objs|]; simpl; [|done].
  destruct (EmptyTrash ∅ _ _) as [[ift d0]|]; simpl; [|done].
  destruct (EmptyTrash [] _ (trashedImageViews st)) as [[tiv d1]|];
    simpl; [|done].
  destruct (EmptyTrash [] _ (trashedImages st)) as [[ti d2]|];
    simpl; [|done].
  destruct (EmptyTrash [] _ (trashedMem st)) as [[tm d3]|]; simpl; [|done].
  destruct (EmptyTrash [] _ (trashedBuffers st)) as [[tb d4]|];
    simpl; [|done].
  intros [= <-]. by eexists _, _, _, _, _, _, _, _, _, _, _.
Qed.

Lemma vacate_dom st objs : vacate st = Some objs → dom objs = dom (objects st).
Proof.
  unfold vacate. case_match; [|by intros [= <-]].
  destruct (inFlightTextures st !! _) as [s|]; simpl; [|done].
  apply reset_views_dom.
Qed.

Lemma vacate_is_Some st :
  is_u32 (currentIndex st) → inflight_live st → is_Some (vacate st).
Proof.
  intros [Hcur _] Hlive. unfold vacate. case_match eqn:Hlt; [|eauto].
  destruct (inFlightTextures st !! _) as [s|] eqn:Hs; simpl.
  - apply reset_views_is_Some. by eapply Hlive.
  - apply lookup_ge_None in Hs. apply Z.ltb_lt in Hlt. lia.
Qed.

(** What [vacate] does to each object: the alias view is reset for the
    members of the in-flight set of the slot being left. *)
Lemma vacate_lookup st objs p :
  vacate st = Some objs →
  objs !! p =
    if decide (p ∈ default ∅ (inFlightTextures st
                                !! Z.to_nat (currentIndex st)))
    then reset_readOnlyImageView <$> objects st !! p
    else objects st !! p.
Proof.
  unfold vacate. case_match eqn:Hlt.
  - destruct (inFlightTextures st !! _) as [s|]; simpl; [|done].
    intros [_ Hlook]%reset_views_lookup. apply Hlook.
  - intros [= <-]. apply Z.ltb_ge in Hlt.
    destruct (Z_lt_le_dec (currentIndex st) 0) as [Hneg|Hpos].
    + destruct (inFlightTextures st) as [|s0 l]; simpl in *; [|lia].
      by rewrite decide_False by set_solver.
    + rewrite lookup_ge_None_2 by lia. simpl.
      by rewrite decide_False by set_solver.
Qed.

Lemma SetCurrentIndex_currentIndex index st st' :
  SetCurrentIndex index st = Some st' → currentIndex st' = to_u32 index.
Proof.
  intros (?&?&?&?&?&?&?&?&?&?&?&_&_&_&_&_&_&->)%SetCurrentIndex_inv. done.
Qed.

Lemma SetCurrentIndex_cache index st st' :
  SetCurrentIndex index st = Some st' → cache st' = cache st.
Proof.
  intros (?&?&?&?&?&?&?&?&?&?&?&_&_&_&_&_&_&->)%SetCurrentIndex_inv. done.
Qed.

(** [SetCurrentIndex index] releases what the bins of slot [index] hold,
    and nothing else. *)
Lemma SetCurrentIndex_released index st st' :
  SetCurrentIndex index st = Some st' →
  released st' = released st ++ bin_resources st (Z.to_nat (to_u32 index)).
Proof.
  intros (?&?&?&?&?&?&?&?&?&?&?&_&_&H1&H2&H3&H4&->)%SetCurrentIndex_inv.
  pose proof (to_u32_range index) as [Hr _].
  apply EmptyTrash_inv in H1 as (_&_&_&->&_); [|done].
  apply EmptyTrash_inv in H2 as (_&_&_&->&_); [|done].
  apply EmptyTrash_inv in H3 as (_&_&_&->&_); [|done].
  apply EmptyTrash_inv in H4 as (_&_&_&->&_); [|done].
  done.
Qed.

(** It leaves the bins of slot [index] empty and those of the other
    slots as they were. *)
Lemma SetCurrentIndex_bins index st st' k :
  SetCurrentIndex index st = Some st' →
  bin_resources st' k =
    if decide (k = Z.to_nat (to_u32 index)) then [] else bin_resources st k.
Proof.
  intros (?&?&?&?&?&?&?&?&?&?&?&_&_&H1&H2&H3&H4&->)%SetCurrentIndex_inv.
  pose proof (to_u32_range index) as [Hr _].
  apply EmptyTrash_inv in H1 as (_&_&E1&_&O1); [|done].
  apply EmptyTrash_inv in H2 as (_&_&E2&_&O2); [|done].
  apply EmptyTrash_inv in H3 as (_&_&E3&_&O3); [|done].
  apply EmptyTrash_inv in H4 as (_&_&E4&_&O4); [|done].
  unfold bin_resources, bin_at; simpl. case_decide as Hk.
  - subst k. by rewrite E1, E2, E3, E4.
  - destruct (O1 k Hk) as [-> _]. destruct (O2 k Hk) as [-> _].
    destruct (O3 k Hk) as [-> _]. destruct (O4 k Hk) as [-> _]. done.
Qed.

(** After [SetCurrentIndex] every per-slot vector covers the new
    current slot, and none is shorter than before. *)
Lemma SetCurrentIndex_lengths index st st' :
  SetCurrentIndex index st = Some st' →
  Forall2 le (slot_lengths st) (slot_lengths st') ∧
  Forall (λ n : nat, to_u32 index < Z.of_nat n) (slot_lengths st').
Proof.
  intros (?&?&?&?&?&?&?&?&?&?&?&_&H0&H1&H2&H3&H4&->)%SetCurrentIndex_inv.
  pose proof (to_u32_range index) as [Hr _].
  apply EmptyTrash_inv in H0 as (?&?&_); [|done].
  apply EmptyTrash_inv in H1 as (?&?&_); [|done].
  apply EmptyTrash_inv in H2 as (?&?&_); [|done].
  apply EmptyTrash_inv in H3 as (?&?&_); [|done].
  apply EmptyTrash_inv in H4 as (?&?&_); [|done].
  unfold slot_lengths; simpl. split; repeat constructor; done.
Qed.

(** The in-flight set of the new current slot is emptied; the others
    are kept. *)
Lemma SetCurrentIndex_inFlight index st st' (i : nat) :
  SetCurrentIndex index st = Some st' →
  default ∅ (inFlightTextures st' !! i) =
    if decide (i = Z.to_nat (to_u32 index)) then ∅
    else default ∅ (inFlightTextures st !! i).
Proof.
  intros (?&?&?&?&?&?&?&?&?&?&?&_&H0&_&_&_&_&->)%SetCurrentIndex_inv.
  pose proof (to_u32_range index) as [Hr _].
  apply EmptyTrash_inv in H0 as (_&_&E0&_&O0); [|done]. simpl.
  case_decide as Hi.
  - subst i. by rewrite E0.
  - by destruct (O0 i Hi) as [-> _].
Qed.

Lemma SetCurrentIndex_dom index st st' :
  SetCurrentIndex index st = Some st' → dom (objects st') = dom (objects st).
Proof.
  intros (?&?&?&?&?&?&?&?&?&?&?&Hv&_&_&_&_&_&->)%SetCurrentIndex_inv.
  simpl. by eapply vacate_dom.
Qed.

Lemma inflight_live_alt st :
  inflight_live st ↔
  ∀ i : nat, default ∅ (inFlightTextures st !! i) ⊆ dom (objects st).
Proof.
  split.
  - intros H i. destruct (inFlightTextures st !! i) as [s|] eqn:Hs; simpl.
    + by eapply H.
    + set_solver.
  - intros H i s Hs. specialize (H i). by rewrite Hs in H.
Qed.

Lemma SetCurrentIndex_live index st st' :
  SetCurrentIndex index st = Some st' →
  inflight_live st → inflight_live st' ∧ is_u32 (currentIndex st').
Proof.
  intros Hs Hlive. split.
  - apply inflight_live_alt. intros i.
    rewrite (SetCurrentIndex_inFlight _ _ _ _ Hs),
            (SetCurrentIndex_dom _ _ _ Hs).
    case_decide; [set_solver|]. by apply inflight_live_alt.
  - rewrite (SetCurrentIndex_currentIndex _ _ _ Hs). apply to_u32_range.
Qed.

(** [SetCurrentIndex] returns for every index but [-1] (which becomes
    [0xFFFFFFFF] and makes [currentIndex + 1] wrap to [0]), provided the
    textures in flight still exist. *)
Lemma SetCurrentIndex_is_Some index st :
  to_u32 index ≠ 2 ^ 32 - 1 →
  is_u32 (currentIndex st) → inflight_live st →
  is_Some (SetCurrentIndex index st).
Proof.
  intros Hidx Hcur Hlive. unfold SetCurrentIndex.
  destruct (vacate_is_Some st Hcur Hlive) as [objs ->]. simpl.
  pose proof (to_u32_range index) as Hr.
  assert (0 ≤ to_u32 index < 2 ^ 32 - 1) as Hr' by lia.
  destruct (EmptyTrash_is_Some (∅ : gset ptr) _ (inFlightTextures st) Hr')
    as [[? ?] ->]; simpl.
  destruct (EmptyTrash_is_Some [] _ (trashedImageViews st) Hr')
    as [[? ?] ->]; simpl.
  destruct (EmptyTrash_is_Some [] _ (trashedImages st) Hr')
    as [[? ?] ->]; simpl.
  destruct (EmptyTrash_is_Some [] _ (trashedMem st) Hr')
    as [[? ?] ->]; simpl.
  destruct (EmptyTrash_is_Some [] _ (trashedBuffers st) Hr')
    as [[? ?] ->]; simpl.
  eauto.
Qed.

(** ** DestroyLater *)

Lemma push_back_at_Some {T} (i : Z) (x : T) v v' :
  push_back_at i x v = Some v' →
  length v' = length v ∧ (Z.to_nat i < length v)%nat ∧
  v' !! Z.to_nat i = Some (default [] (v !! Z.to_nat i) ++ [x]) ∧
  ∀ k : nat, k ≠ Z.to_nat i → v' !! k = v !! k.
Proof.
  unfold push_back_at.
  destruct (v !! Z.to_nat i) as [bin|] eqn:Hbin; simpl; [|done].
  intros [= <-]. pose proof (lookup_lt_Some _ _ _ Hbin).
  rewrite length_insert. split_and!; [done|done| |].
  - by rewrite list_lookup_insert_eq.
  - intros k Hk. by rewrite list_lookup_insert_ne.
Qed.

Lemma push_back_at_is_Some {T} (i : Z) (x : T) v :
  is_Some (push_back_at i x v) ↔ (Z.to_nat i < length v)%nat.
Proof.
  unfold push_back_at. rewrite <- lookup_lt_is_Some.
  destruct (v !! Z.to_nat i); simpl; split; intros [? ?]; eauto; done.
Qed.

Lemma destroy_all_snoc mk l x :
  destroy_all mk (l ++ [x]) = destroy_all mk l ++ destroy_all mk [x].
Proof. unfold destroy_all. apply omap_app. Qed.

Lemma elem_of_destroy_all mk l r :
  r ∈ destroy_all mk l ↔ ∃ h, Some h ∈ l ∧ r = mk h.
Proof.
  unfold destroy_all. rewrite list_elem_of_omap. split.
  - intros ([h|] & Hin & Heq); simplify_eq/=. eauto.
  - intros (h & Hin & ->). exists (Some h). done.
Qed.

(** On a texture without image [DestroyLater] returns at once. *)
Lemma DestroyLater_no_image texture st t :
  objects st !! texture = Some t → image t = None →
  DestroyLater texture st = Some st.
Proof. intros Ht Hi. unfold DestroyLater. rewrite Ht. simpl. by rewrite Hi. Qed.

(** On a texture with an image it appends the four sub-resources to the
    bins of the current slot and leaves the texture moved-from. *)
Lemma DestroyLater_image texture st st' t :
  objects st !! texture = Some t → is_Some (image t) →
  DestroyLater texture st = Some st' →
  ∃ ti tiv tm tb,
    push_back_at (currentIndex st) (image t) (trashedImages st) = Some ti ∧
    push_back_at (currentIndex st) (imageView t) (trashedImageViews st)
      = Some tiv ∧
    push_back_at (currentIndex st) (allocation t) (trashedMem st)
      = Some tm ∧
    push_back_at (currentIndex st) (stagingBufferData t)
      (trashedBuffers st) = Some tb ∧
    st' = mkTextureCache (<[texture := moved_out t]> (objects st))
            (cache st) (inFlightTextures st) tiv ti tm tb
            (currentIndex st) (released st).
Proof.
  intros Ht [i Hi]. unfold DestroyLater. rewrite Ht. simpl. rewrite Hi.
  destruct (push_back_at _ _ (trashedImages st)) as [ti|]; simpl; [|done].
  destruct (push_back_at _ _ (trashedImageViews st)) as [tiv|];
    simpl; [|done].
  destruct (push_back_at _ _ (trashedMem st)) as [tm|]; simpl; [|done].
  destruct (push_back_at _ _ (trashedBuffers st)) as [tb|]; simpl; [|done].
  intros [= <-]. by eexists _, _, _, _.
Qed.

Lemma DestroyLater_deref texture st st' :
  DestroyLater texture st = Some st' → is_Some (objects st !! texture).
Proof. unfold DestroyLater. destruct (objects st !! texture); eauto; done. Qed.

(** The members [DestroyLater] never writes. *)
Lemma DestroyLater_frame texture st st' :
  DestroyLater texture st = Some st' →
  inFlightTextures st' = inFlightTextures st ∧ cache st' = cache st ∧
  currentIndex st' = currentIndex st ∧ released st' = released st ∧
  slot_lengths st' = slot_lengths st ∧
  dom (objects st') = dom (objects st).
Proof.
  intros H. destruct (DestroyLater_deref _ _ _ H) as [t Ht].
  destruct (image t) as [i|] eqn:Hi.
  - destruct (DestroyLater_image _ _ _ _ Ht (ltac:(eauto)) H)
      as (ti&tiv&tm&tb&H1&H2&H3&H4&->).
    apply push_back_at_Some in H1 as (?&_). apply push_back_at_Some in H2 as (?&_).
    apply push_back_at_Some in H3 as (?&_). apply push_back_at_Some in H4 as (?&_).
    unfold slot_lengths; simpl. split_and!; try done; [congruence|].
    rewrite dom_insert_L. apply elem_of_dom_2 in Ht. set_solver.
  - rewrite (DestroyLater_no_image _ _ _ Ht Hi) in H. by injection H as <-.
Qed.

(** The bins after [DestroyLater] of a texture with an image. *)
Lemma DestroyLater_bins texture st st' t r (k : nat) :
  objects st !! texture = Some t → is_Some (image t) →
  DestroyLater texture st = Some st' →
  r ∈ bin_resources st' k ↔
  r ∈ bin_resources st k
  ∨ (k = Z.to_nat (currentIndex st) ∧ r ∈ Texture_dtor t).
Proof.
  intros Ht Hi H.
  destruct (DestroyLater_image _ _ _ _ Ht Hi H)
    as (ti&tiv&tm&tb&H1&H2&H3&H4&->).
  apply push_back_at_Some in H1 as (_&_&E1&O1).
  apply push_back_at_Some in H2 as (_&_&E2&O2).
  apply push_back_at_Some in H3 as (_&_&E3&O3).
  apply push_back_at_Some in H4 as (_&_&E4&O4).
  unfold bin_resources, bin_at, Texture_dtor; simpl.
  destruct (decide (k = Z.to_nat (currentIndex st))) as [->|Hk].
  - rewrite E1, E2, E3, E4. simpl. rewrite !destroy_all_snoc.
    rewrite !elem_of_app. naive_solver.
  - rewrite O1, O2, O3, O4 by done. naive_solver.
Qed.

Lemma DestroyLater_live texture st st' :
  DestroyLater texture st = Some st' →
  inflight_live st → inflight_live st'.
Proof.
  intros (Hf&_&_&_&_&Hd)%DestroyLater_frame Hlive i s.
  rewrite Hf, Hd. apply Hlive.
Qed.

(** ** The trash ring *)

Lemma SetCurrentIndex_seq_is_Some js st :
  (∀ j, j ∈ js → to_u32 j ≠ 2 ^ 32 - 1) →
  is_u32 (currentIndex st) → inflight_live st →
  is_Some (SetCurrentIndex_seq js st).
Proof.
  revert st. induction js as [|j js IH]; simpl; intros st Hjs Hcur Hlive.
  - eauto.
  - destruct (SetCurrentIndex_is_Some j st) as [st' Hst']; auto.
    { apply Hjs. by left. }
    rewrite Hst'. simpl.
    destruct (SetCurrentIndex_live _ _ _ Hst' Hlive).
    apply IH; auto. intros j' Hj'. apply Hjs. by right.
Qed.

(** The log of released resources only grows. *)
Lemma SetCurrentIndex_seq_released_mono js st st' r :
  SetCurrentIndex_seq js st = Some st' →
  r ∈ released st → r ∈ released st'.
Proof.
  revert st. induction js as [|j js IH]; simpl; intros st Hrun Hr.
  - by injection Hrun as <-.
  - destruct (SetCurrentIndex j st) as [st1|] eqn:Hst1; simpl in Hrun;
      [|done].
    eapply IH; [done|].
    rewrite (SetCurrentIndex_released _ _ _ Hst1). set_solver.
Qed.

(** A resource waiting in the bins of slot [k] only, across any
    sequence of [SetCurrentIndex] calls: it has been released at the end
    exactly when one of the calls made slot [k] current. *)
Lemma SetCurrentIndex_seq_released js st st' r (k : nat) :
  SetCurrentIndex_seq js st = Some st' →
  r ∈ bin_resources st k →
  (∀ k' : nat, k' ≠ k → r ∉ bin_resources st k') →
  r ∉ released st →
  r ∈ released st' ↔ ∃ j, j ∈ js ∧ Z.to_nat (to_u32 j) = k.
Proof.
  revert st. induction js as [|j js IH]; simpl; intros st Hrun Hin Hout Hnr.
  - injection Hrun as <-. split; [done|].
    by intros (j & Hj%elem_of_nil & _).
  - destruct (SetCurrentIndex j st) as [st1|] eqn:Hst1; simpl in Hrun;
      [|done].
    pose proof (SetCurrentIndex_released _ _ _ Hst1) as Hrel.
    destruct (decide (Z.to_nat (to_u32 j) = k)) as [Hjk|Hjk].
    + split; [intros _; exists j; split; [by left|done]|].
      intros _. eapply SetCurrentIndex_seq_released_mono; [done|].
      rewrite Hrel, Hjk. set_solver.
    + rewrite (IH st1 Hrun).
      * split; intros (j' & Hj' & Hk); exists j'; split; try done.
        -- by right.
        -- apply elem_of_cons in Hj' as [->|?]; done.
      * rewrite (SetCurrentIndex_bins _ _ _ _ Hst1).
        by rewrite decide_False by done.
      * intros k' Hk'. rewrite (SetCurrentIndex_bins _ _ _ _ Hst1).
        case_decide; [set_solver|]. by apply Hout.
      * rewrite Hrel, elem_of_app. intros [?|Hb]; [done|].
        by apply (Hout (Z.to_nat (to_u32 j))).
Qed.

(** The slots of a ring of depth [R] are [int]s in [0, R). *)
Lemma elem_of_ring_slots R k n j :
  j ∈ ring_slots R k n ↔
  ∃ i : nat, (1 ≤ i ≤ n)%nat ∧ j = (k + Z.of_nat i) mod R.
Proof.
  unfold ring_slots. rewrite list_elem_of_fmap. split.
  - intros (i & -> & Hi%elem_of_seq). exists i. split; [lia|done].
  - intros (i & Hi & ->). exists i. split; [done|].
    apply elem_of_seq. lia.
Qed.

(** Slot [k] comes round again at the [R]-th step and not before. *)
Lemma ring_slots_revisit R k n :
  0 < R ≤ 2 ^ 31 → 0 ≤ k < R →
  (∃ j, j ∈ ring_slots R k n ∧ Z.to_nat (to_u32 j) = Z.to_nat k)
  ↔ R ≤ Z.of_nat n.
Proof.
  intros HR Hk. split.
  - intros (j & (i & Hi & ->)%elem_of_ring_slots & Hj).
    pose proof (Z.mod_pos_bound (k + Z.of_nat i) R ltac:(lia)) as Hm.
    rewrite to_u32_small in Hj by lia.
    assert ((k + Z.of_nat i) mod R = k) as Heq by lia.
    pose proof (Z.div_mod (k + Z.of_nat i) R ltac:(lia)) as Hdm.
    rewrite Heq in Hdm.
    assert (0 < (k + Z.of_nat i) / R) by nia. nia.
  - intros Hn. exists k. split.
    + apply elem_of_ring_slots. exists (Z.to_nat R). split; [lia|].
      rewrite Z2Nat.id by lia.
      rewrite <- (Z.mul_1_l R) at 1. rewrite Z.mod_add by lia.
      symmetry. apply Z.mod_small. lia.
    + rewrite to_u32_small by lia. done.
Qed.

(** Ring of depth 2, the texture trashed while slot 1 is current:
    going to slot 0 releases nothing, coming back to slot 1 releases the
    view, the image, the memory and the staging buffer. *)
Example ring_depth_2_scenario :
  (st1 ← DestroyLater 1%positive sample_cache;
   st2 ← SetCurrentIndex 0 st1;
   st3 ← SetCurrentIndex 1 st2;
   Some (released st1, released st2, released st3))
  = Some ([], [],
          [ResImageView 11%positive; ResImage 10%positive;
           ResMem 12%positive; ResBuffer 13%positive]).
Proof. vm_compute. reflexivity. Qed.


(** C1. In a ring of depth [R] (slots [0..R-1] visited in turn), the
    sub-resources that [DestroyLater] moved to the trash while slot [k]
    was current are released exactly when slot [k] becomes current
    again: after [n] further [SetCurrentIndex] calls a trashed resource
    has been released if and only if [R ≤ n], so never before [R - 1]
    other slot changes have gone by. The calls all return. *)
Theorem trashed_released_on_revisit (R : Z) (n : nat) st texture t st1 r :
  0 < R ≤ 2 ^ 31 →
  0 ≤ currentIndex st < R →
  inflight_live st →
  objects st !! texture = Some t → is_Some (image t) →
  r ∈ Texture_dtor t →
  (∀ k : nat, r ∉ bin_resources st k) → r ∉ released st →
  DestroyLater texture st = Some st1 →
  ∃ stn,
    SetCurrentIndex_seq (ring_slots R (currentIndex st) n) st1 = Some stn ∧
    (r ∈ released stn ↔ R ≤ Z.of_nat n).
Proof.
  intros HR Hk Hlive Ht Hi Hr Hbins Hrel Hd.
  pose proof (DestroyLater_frame _ _ _ Hd) as (_&_&Hcur&Hrel1&_&_).
  destruct (SetCurrentIndex_seq_is_Some (ring_slots R (currentIndex st) n) st1)
    as [stn Hstn].
  - intros j (i & _ & ->)%elem_of_ring_slots.
    pose proof (Z.mod_pos_bound (currentIndex st + Z.of_nat i) R ltac:(lia)).
    rewrite to_u32_small; lia.
  - rewrite Hcur. unfold is_u32. lia.
  - by eapply DestroyLater_live.
  - exists stn. split; [done|].
    rewrite <- (ring_slots_revisit R (currentIndex st) n) by done.
    apply (SetCurrentIndex_seq_released _ st1); [done| | |].
    + apply (DestroyLater_bins _ _ _ _ _ _ Ht Hi Hd). by right.
    + intros k' Hk' Hin.
      apply (DestroyLater_bins _ _ _ _ _ _ Ht Hi Hd) in Hin as [Hin|[? _]].
      * by apply (Hbins k').
      * done.
    + by rewrite Hrel1.
Qed.

Lemma trashed_released_on_revisit_witness :
  ∃ st1, DestroyLater 1%positive sample_cache = Some st1 ∧
  ∃ stn,
    SetCurrentIndex_seq (ring_slots 2 1 2) st1 = Some stn ∧
    (ResImage 10%positive ∈ released stn ↔ 2 ≤ Z.of_nat 2).
Proof.
  eexists. split; [vm_compute; reflexivity|].
  apply (trashed_released_on_revisit 2 2 sample_cache 1%positive
           sample_texture).
  - lia.
  - simpl. lia.
  - intros [|[|i]] s; simpl; intros [= <-]; set_solver.
  - reflexivity.
  - simpl. eauto.
  - vm_compute. set_solver.
  - intros k. destruct k as [|[|k]]; vm_compute; apply not_elem_of_nil.
  - apply not_elem_of_nil.
  - vm_compute. reflexivity.
Defined.

(** Where the sub-resources of a texture with an image end up. *)
Lemma DestroyLater_image_bins texture st st1 t :
  objects st !! texture = Some t → is_Some (image t) →
  DestroyLater texture st = Some st1 →
  let k := Z.to_nat (currentIndex st) in
  trashedImages st1 !! k = Some (bin_at (trashedImages st) k ++ [image t])
  ∧ trashedImageViews st1 !! k
    = Some (bin_at (trashedImageViews st) k ++ [imageView t])
  ∧ trashedMem st1 !! k
    = Some (bin_at (trashedMem st) k ++ [allocation t])
  ∧ trashedBuffers st1 !! k
    = Some (bin_at (trashedBuffers st) k ++ [stagingBufferData t])
  ∧ objects st1 !! texture = Some (moved_out t).
Proof.
  intros Ht Hi Hd.
  destruct (DestroyLater_image _ _ _ _ Ht Hi Hd)
    as (ti&tiv&tm&tb&H1&H2&H3&H4&->).
  apply push_back_at_Some in H1 as (_&_&E1&_).
  apply push_back_at_Some in H2 as (_&_&E2&_).
  apply push_back_at_Some in H3 as (_&_&E3&_).
  apply push_back_at_Some in H4 as (_&_&E4&_).
  simpl. split_and!; try done. apply lookup_insert_eq.
Qed.

(** C4. [DestroyLater] does nothing to an object without image, so a
    second [DestroyLater] in succession returns with the state as the
    first one left it: the object and every trash bin are unchanged. The
    first call, on an object with an image, has appended the image, the
    view, the memory and the staging buffer to the bins of the current
    slot, once each. *)
Theorem DestroyLater_twice texture st st1 t :
  objects st !! texture = Some t →
  DestroyLater texture st = Some st1 →
  DestroyLater texture st1 = Some st1 ∧
  (image t = None → st1 = st) ∧
  (is_Some (image t) →
     let k := Z.to_nat (currentIndex st) in
     trashedImages st1 !! k = Some (bin_at (trashedImages st) k ++ [image t])
     ∧ trashedImageViews st1 !! k
       = Some (bin_at (trashedImageViews st) k ++ [imageView t])
     ∧ trashedMem st1 !! k
       = Some (bin_at (trashedMem st) k ++ [allocation t])
     ∧ trashedBuffers st1 !! k
       = Some (bin_at (trashedBuffers st) k ++ [stagingBufferData t])
     ∧ objects st1 !! texture = Some (moved_out t)).
Proof.
  intros Ht Hd. destruct (image t) as [i|] eqn:Hi.
  - pose proof (DestroyLater_image_bins _ _ _ _ Ht
                  (ltac:(rewrite Hi; eauto)) Hd) as Hb.
    rewrite Hi in Hb. split_and!; [|done|by intros _].
    eapply DestroyLater_no_image; [apply Hb|done].
  - rewrite (DestroyLater_no_image _ _ _ Ht Hi) in Hd. injection Hd as <-.
    split_and!; [by eapply DestroyLater_no_image|done|by intros [? ?]].
Qed.

Lemma DestroyLater_twice_witness :
  ∃ st1, DestroyLater 1%positive sample_cache = Some st1 ∧
    DestroyLater 1%positive st1 = Some st1 ∧
    trashedImages st1 !! 1%nat = Some [Some 10%positive].
Proof.
  eexists. split; [vm_compute; reflexivity|].
  destruct (DestroyLater_twice 1%positive sample_cache _ sample_texture
              eq_refl eq_refl) as (H2 & _ & H3).
  split; [exact H2|]. apply H3. simpl. eauto.
Defined.

(** C8. [DestroyLater] leaves every in-flight set as it was (the object
    stays a member wherever it was one) and does not touch the table
    from descriptors to objects. *)
Theorem DestroyLater_keeps_inFlight texture st st' :
  DestroyLater texture st = Some st' →
  (∀ s : nat, inFlightTextures st' !! s = inFlightTextures st !! s) ∧
  inFlightTextures st' = inFlightTextures st ∧
  cache st' = cache st.
Proof.
  intros (Hf&Hc&_)%DestroyLater_frame. rewrite Hf. done.
Qed.

Lemma DestroyLater_keeps_inFlight_witness :
  ∃ st', DestroyLater 1%positive sample_cache = Some st' ∧
    inFlightTextures st' = [∅; {[1%positive]}] ∧
    cache st' = {[7 := 1%positive]}.
Proof.
  eexists. split; [vm_compute; reflexivity|].
  destruct (DestroyLater_keeps_inFlight 1%positive sample_cache _ eq_refl)
    as (_ & H1 & H2).
  split; [exact H1|exact H2].
Defined.

(** ** IsInFlight *)

Lemma IsInFlight_loop_true (i0 : nat) sets cur texture :
  IsInFlight_loop i0 sets cur texture = true ↔
  ∃ (j : nat) (s : gset ptr),
    sets !! j = Some s ∧ Z.of_nat (i0 + j) ≠ cur ∧ texture ∈ s.
Proof.
  revert i0. induction sets as [|s0 sets IH]; intros i0; simpl.
  - split; [done|]. intros (j & s & Hj & _). by rewrite lookup_nil in Hj.
  - destruct (bool_decide (Z.of_nat i0 ≠ cur) && bool_decide (texture ∈ s0))
      eqn:Hhd.
    + apply andb_true_iff in Hhd as [H1%bool_decide_eq_true
                                       H2%bool_decide_eq_true].
      split; [intros _|done]. exists 0%nat, s0.
      rewrite Nat.add_0_r. done.
    + rewrite IH. split.
      * intros (j & s & Hj & Hne & Hin). exists (S j), s.
        split_and!; [done| |done]. by rewrite Nat.add_succ_r.
      * intros ([|j] & s & Hj & Hne & Hin); simpl in Hj.
        -- injection Hj as <-. rewrite Nat.add_0_r in Hne.
           apply andb_false_iff in Hhd
             as [H%bool_decide_eq_false|H%bool_decide_eq_false]; done.
        -- exists j, s. split_and!; [done| |done].
           by rewrite Nat.add_succ_r in Hne.
Qed.

Lemma IsInFlight_true texture st :
  IsInFlight texture st = true ↔
  ∃ (i : nat) (s : gset ptr),
    inFlightTextures st !! i = Some s ∧ Z.of_nat i ≠ currentIndex st
    ∧ texture ∈ s.
Proof. unfold IsInFlight. by rewrite IsInFlight_loop_true. Qed.

Lemma IsInFlight_false texture st :
  IsInFlight texture st = false ↔
  ∀ (i : nat) (s : gset ptr),
    inFlightTextures st !! i = Some s → texture ∈ s →
    Z.of_nat i = currentIndex st.
Proof.
  rewrite <- not_true_iff_false, IsInFlight_true. split.
  - intros Hnone i s Hi Hin.
    destruct (decide (Z.of_nat i = currentIndex st)); [done|].
    exfalso. apply Hnone. by exists i, s.
  - intros Hall (i & s & Hi & Hne & Hin). by apply Hne, (Hall i s).
Qed.

(** C6. [IsInFlight] answers [true] exactly when the object belongs to
    the in-flight set of some slot other than the current one; an object
    that is a member of the current slot's set only gets [false]. *)
Theorem IsInFlight_spec texture st :
  (IsInFlight texture st = true ↔
   ∃ (i : nat) (s : gset ptr),
     inFlightTextures st !! i = Some s ∧ Z.of_nat i ≠ currentIndex st
     ∧ texture ∈ s) ∧
  ((∀ (i : nat) (s : gset ptr),
      inFlightTextures st !! i = Some s → texture ∈ s →
      Z.of_nat i = currentIndex st) ↔
   IsInFlight texture st = false).
Proof.
  split; [apply IsInFlight_true|]. symmetry. apply IsInFlight_false.
Qed.

(** ** Clear *)

Lemma lookup_const_fmap {A B} (b : B) (l : list A) (i : nat) (y : B) :
  ((λ _, b) <$> l) !! i = Some y → y = b.
Proof.
  rewrite list_lookup_fmap. destruct (l !! i); simpl; congruence.
Qed.

Lemma elem_of_bin_concat mk (v : list (list (option handle))) k r :
  r ∈ destroy_all mk (bin_at v k) → r ∈ destroy_all mk (concat v).
Proof.
  rewrite !elem_of_destroy_all. intros (h & Hin & ->). exists h.
  split; [|done]. unfold bin_at in Hin.
  destruct (v !! k) as [bin|] eqn:Hbin; simpl in Hin;
    [|by apply elem_of_nil in Hin].
  apply list_elem_of_In, in_concat. exists bin.
  split; apply list_elem_of_In; [|done].
  by eapply list_elem_of_lookup_2.
Qed.

Lemma Clear_frame st :
  slot_lengths (Clear st) = slot_lengths st ∧
  currentIndex (Clear st) = currentIndex st.
Proof. unfold slot_lengths, Clear; simpl. by rewrite !length_fmap. Qed.

(** C5. [Clear] empties the descriptor table, the in-flight set of every
    slot and the trash bins of every slot, whichever slot is current,
    releasing what the bins held; afterwards [IsInFlight] is false for
    every object. *)
Theorem Clear_spec st :
  cache (Clear st) = ∅ ∧
  (∀ (i : nat) s, inFlightTextures (Clear st) !! i = Some s → s = ∅) ∧
  (∀ (i : nat) bin, trashedImageViews (Clear st) !! i = Some bin → bin = []) ∧
  (∀ (i : nat) bin, trashedImages (Clear st) !! i = Some bin → bin = []) ∧
  (∀ (i : nat) bin, trashedMem (Clear st) !! i = Some bin → bin = []) ∧
  (∀ (i : nat) bin, trashedBuffers (Clear st) !! i = Some bin → bin = []) ∧
  (∀ (k : nat) r, r ∈ bin_resources st k → r ∈ released (Clear st)) ∧
  (∀ texture, IsInFlight texture (Clear st) = false).
Proof.
  split_and!; simpl; try (intros i x; apply lookup_const_fmap).
  - done.
  - intros k r. unfold bin_resources. rewrite !elem_of_app.
    intros [H|[H|[H|H]]]; apply elem_of_bin_concat in H; auto 10.
  - intros texture. apply IsInFlight_false.
    intros i s Hs Hin. apply lookup_const_fmap in Hs. set_solver.
Qed.

(** ** Lengths of the per-slot vectors *)

Lemma SetInFlight_frame texture st st' :
  SetInFlight texture st = Some st' →
  slot_lengths st' = slot_lengths st ∧ currentIndex st' = currentIndex st.
Proof.
  unfold SetInFlight. destruct (inFlightTextures st !! _); simpl; [|done].
  intros [= <-]. unfold slot_lengths; simpl. by rewrite length_insert.
Qed.

Lemma clearTexture_frame Delete tex st st' b :
  clearTexture Delete tex st = Some (st', b) →
  slot_lengths st' = slot_lengths st ∧ currentIndex st' = currentIndex st.
Proof.
  unfold clearTexture. destruct (objects st !! tex) as [t|]; simpl; [|done].
  destruct (Delete t) as [[t' rel] b']. intros [= <- <-].
  unfold slot_lengths; simpl. by rewrite length_fmap.
Qed.

Lemma Forall2_le_refl (l : list nat) : Forall2 le l l.
Proof. induction l; constructor; auto. Qed.

Lemma Forall2_le_trans (l1 l2 l3 : list nat) :
  Forall2 le l1 l2 → Forall2 le l2 l3 → Forall2 le l1 l3.
Proof.
  intros H12. revert l3. induction H12; intros l3 H23; inversion H23; subst.
  - constructor.
  - constructor; [lia|auto].
Qed.

(** No call shortens a per-slot vector; all but [SetCurrentIndex] keep
    the lengths and the current slot. *)
Lemma step_lengths Delete o st st' :
  step Delete o st = Some st' →
  Forall2 le (slot_lengths st) (slot_lengths st') ∧
  ((∀ index, o ≠ OpSetCurrentIndex index) →
   slot_lengths st' = slot_lengths st ∧ currentIndex st' = currentIndex st).
Proof.
  destruct o as [index|texture|texture| |tex]; simpl; intros Hs.
  - split; [by apply SetCurrentIndex_lengths in Hs as [? _]|].
    intros H. by destruct (H index).
  - apply SetInFlight_frame in Hs as [-> ->].
    split; [apply Forall2_le_refl|done].
  - apply DestroyLater_frame in Hs as (_&_&->&_&->&_).
    split; [apply Forall2_le_refl|done].
  - injection Hs as <-. destruct (Clear_frame st) as [-> ->].
    split; [apply Forall2_le_refl|done].
  - destruct (clearTexture Delete tex st) as [[st1 b]|] eqn:Hc;
      simpl in Hs; [|done].
    injection Hs as <-. apply clearTexture_frame in Hc as [-> ->].
    split; [apply Forall2_le_refl|done].
Qed.

Lemma run_lengths Delete ops st st' :
  run Delete ops st = Some st' →
  Forall2 le (slot_lengths st) (slot_lengths st').
Proof.
  revert st. induction ops as [|o ops IH]; simpl; intros st Hrun.
  - injection Hrun as <-. apply Forall2_le_refl.
  - destruct (step Delete o st) as [st1|] eqn:Hs; simpl in Hrun; [|done].
    eapply Forall2_le_trans; [by eapply step_lengths|by apply IH].
Qed.

(** C9. The per-slot vectors grow on demand and never shrink: whatever
    calls were made before and are made after, they leave no vector
    shorter, and when [SetCurrentIndex index] returns each of the five
    vectors has at least [index + 1] elements. *)
Theorem per_slot_vectors_grow Delete (index : Z) ops ops' st0 st1 st2 st3 :
  is_int index →
  run Delete ops st0 = Some st1 →
  SetCurrentIndex index st1 = Some st2 →
  run Delete ops' st2 = Some st3 →
  Forall (λ n : nat, index + 1 ≤ Z.of_nat n) (slot_lengths st2) ∧
  Forall (λ n : nat, index + 1 ≤ Z.of_nat n) (slot_lengths st3) ∧
  Forall2 le (slot_lengths st0) (slot_lengths st1) ∧
  Forall2 le (slot_lengths st1) (slot_lengths st2) ∧
  Forall2 le (slot_lengths st2) (slot_lengths st3).
Proof.
  intros Hint H01 H12 H23.
  pose proof (SetCurrentIndex_lengths _ _ _ H12) as [Hle Hcov].
  pose proof (run_lengths _ _ _ _ H23) as Hle'.
  assert (Forall (λ n : nat, index + 1 ≤ Z.of_nat n) (slot_lengths st2))
    as Hcov2.
  { eapply Forall_impl; [exact Hcov|]. simpl. intros n Hn.
    pose proof (to_u32_ge_int index Hint). lia. }
  split_and!; [done| |by eapply run_lengths|done|done].
  clear -Hcov2 Hle'. revert Hcov2.
  induction Hle'; intros Hc; inversion Hc; subst; constructor; [lia|auto].
Qed.

Lemma per_slot_vectors_grow_witness :
  ∃ st1 st2 st3,
    run sample_Delete [OpSetInFlight 1%positive; OpDestroyLater 1%positive]
      sample_cache = Some st1 ∧
    SetCurrentIndex 2 st1 = Some st2 ∧
    run sample_Delete [OpClear; OpSetCurrentIndex 0] st2 = Some st3 ∧
    Forall (λ n : nat, 2 + 1 ≤ Z.of_nat n) (slot_lengths st2) ∧
    Forall (λ n : nat, 2 + 1 ≤ Z.of_nat n) (slot_lengths st3).
Proof.
  eexists _, _, _.
  split; [vm_compute; reflexivity|].
  split; [vm_compute; reflexivity|].
  split; [vm_compute; reflexivity|].
  assert (is_int 2) as Hint by (unfold is_int; lia).
  destruct (per_slot_vectors_grow sample_Delete 2
              [OpSetInFlight 1%positive; OpDestroyLater 1%positive]
              [OpClear; OpSetCurrentIndex 0]
              sample_cache _ _ _ Hint eq_refl eq_refl eq_refl)
    as (H2 & H3 & _).
  split; [exact H2|exact H3].
Defined.

(** ** Access to the element of the current slot *)

Lemma SetInFlight_is_Some texture st :
  is_Some (SetInFlight texture st) ↔
  (Z.to_nat (currentIndex st) < length (inFlightTextures st))%nat.
Proof.
  unfold SetInFlight. rewrite <- lookup_lt_is_Some.
  destruct (inFlightTextures st !! _); simpl; split; intros [? ?]; eauto;
    done.
Qed.

Lemma DestroyLater_is_Some texture st t :
  objects st !! texture = Some t → is_Some (image t) →
  is_Some (DestroyLater texture st) ↔
  Forall (λ n : nat, (Z.to_nat (currentIndex st) < n)%nat)
    [length (trashedImages st); length (trashedImageViews st);
     length (trashedMem st); length (trashedBuffers st)].
Proof.
  intros Ht [i Hi]. unfold DestroyLater. rewrite Ht; simpl. rewrite Hi.
  rewrite !Forall_cons. split.
  - intros [st' H].
    destruct (push_back_at _ _ (trashedImages st)) as [ti|] eqn:E1;
      simpl in H; [|done].
    destruct (push_back_at _ _ (trashedImageViews st)) as [tiv|] eqn:E2;
      simpl in H; [|done].
    destruct (push_back_at _ _ (trashedMem st)) as [tm|] eqn:E3;
      simpl in H; [|done].
    destruct (push_back_at _ _ (trashedBuffers st)) as [tb|] eqn:E4;
      simpl in H; [|done].
    apply push_back_at_Some in E1 as (_&?&_).
    apply push_back_at_Some in E2 as (_&?&_).
    apply push_back_at_Some in E3 as (_&?&_).
    apply push_back_at_Some in E4 as (_&?&_).
    split_and!; done.
  - intros (H1&H2&H3&H4&_).
    destruct (proj2 (push_back_at_is_Some (currentIndex st) (Some i)
                       (trashedImages st)) H1) as [ti ->].
    destruct (proj2 (push_back_at_is_Some (currentIndex st) (imageView t)
                       (trashedImageViews st)) H2) as [tiv ->].
    destruct (proj2 (push_back_at_is_Some (currentIndex st) (allocation t)
                       (trashedMem st)) H3) as [tm ->].
    destruct (proj2 (push_back_at_is_Some (currentIndex st)
                       (stagingBufferData t) (trashedBuffers st)) H4)
      as [tb ->].
    simpl. eauto.
Qed.

Lemma step_covers Delete o st st' :
  step Delete o st = Some st' →
  covers st ∨ (∃ index, o = OpSetCurrentIndex index) → covers st'.
Proof.
  intros Hs Hc.
  assert ((∃ index, o = OpSetCurrentIndex index)
          ∨ (∀ index, o ≠ OpSetCurrentIndex index)) as [[index ->]|Hno].
  { destruct o; eauto. }
  - simpl in Hs. split.
    + rewrite (SetCurrentIndex_currentIndex _ _ _ Hs). apply to_u32_range.
    + rewrite (SetCurrentIndex_currentIndex _ _ _ Hs).
      by apply SetCurrentIndex_lengths in Hs as [_ ?].
  - destruct Hc as [Hc|[index ->]]; [|by destruct (Hno index)].
    apply step_lengths in Hs as [_ Hs].
    destruct (Hs Hno) as [Hl Hcur].
    unfold covers. by rewrite Hl, Hcur.
Qed.

Lemma run_covers Delete ops st st' :
  run Delete ops st = Some st' →
  covers st ∨ (∃ index, OpSetCurrentIndex index ∈ ops) → covers st'.
Proof.
  revert st. induction ops as [|o ops IH]; simpl; intros st Hrun Hc.
  - injection Hrun as <-. destruct Hc as [?|(index & ?%elem_of_nil)]; done.
  - destruct (step Delete o st) as [st1|] eqn:Hs; simpl in Hrun; [|done].
    apply (IH st1 Hrun).
    destruct Hc as [Hc|(index & [<-|Hin]%elem_of_cons)].
    + left. eapply step_covers; eauto.
    + left. eapply step_covers; eauto.
    + right. eauto.
Qed.

Lemma run_without_SetCurrentIndex Delete ops st st' :
  run Delete ops st = Some st' →
  (∀ index, OpSetCurrentIndex index ∉ ops) →
  slot_lengths st' = slot_lengths st ∧ currentIndex st' = currentIndex st.
Proof.
  revert st. induction ops as [|o ops IH]; simpl; intros st Hrun Hno.
  - by injection Hrun as <-.
  - destruct (step Delete o st) as [st1|] eqn:Hs; simpl in Hrun; [|done].
    apply step_lengths in Hs as [_ Hs].
    destruct Hs as [Hl Hcur].
    { intros index ->. apply (Hno index). by left. }
    destruct (IH st1 Hrun) as [Hl' Hcur'].
    { intros index Hin. apply (Hno index). by right. }
    split; congruence.
Qed.

Lemma calls_SetCurrentIndex_dec (ops : list op) :
  (∃ index, OpSetCurrentIndex index ∈ ops)
  ∨ (∀ index, OpSetCurrentIndex index ∉ ops).
Proof.
  induction ops as [|o ops [(index & Hin)|Hno]].
  - right. intros index. apply not_elem_of_nil.
  - left. exists index. by right.
  - destruct o as [index| | | |];
      [left; exists index; by left|right..];
      intros index [?|?]%elem_of_cons; try done; by apply (Hno index).
Qed.

(** C10. [SetInFlight] and [DestroyLater] access the element of the
    current slot as it is: they return exactly when the vectors they
    index have an element there. In a run that started from a freshly
    constructed cache this is the case exactly when [SetCurrentIndex] has
    been called before; on the fresh cache itself both accesses are past
    the end. *)
Theorem current_slot_access Delete objs ops st texture :
  run Delete ops (TextureCache_new objs) = Some st →
  (is_Some (SetInFlight texture st) ↔
   (Z.to_nat (currentIndex st) < length (inFlightTextures st))%nat) ∧
  (∀ t, objects st !! texture = Some t → is_Some (image t) →
     is_Some (DestroyLater texture st) ↔
     Forall (λ n : nat, (Z.to_nat (currentIndex st) < n)%nat)
       [length (trashedImages st); length (trashedImageViews st);
        length (trashedMem st); length (trashedBuffers st)]) ∧
  (covers st ↔ ∃ index, OpSetCurrentIndex index ∈ ops) ∧
  (is_Some (SetInFlight texture st) ↔
   ∃ index, OpSetCurrentIndex index ∈ ops) ∧
  (∀ t, objects st !! texture = Some t → is_Some (image t) →
     is_Some (DestroyLater texture st) ↔
     ∃ index, OpSetCurrentIndex index ∈ ops) ∧
  SetInFlight texture (TextureCache_new objs) = None ∧
  (∀ t, objs !! texture = Some t → is_Some (image t) →
     DestroyLater texture (TextureCache_new objs) = None).
Proof.
  intros Hrun.
  assert (covers st ↔ ∃ index, OpSetCurrentIndex index ∈ ops) as Hcov.
  { split; [|intros H; eapply run_covers; eauto].
    intros [_ Hc]. destruct (calls_SetCurrentIndex_dec ops) as [?|Hno]; [done|].
    destruct (run_without_SetCurrentIndex _ _ _ _ Hrun Hno) as [Hl Hcur].
    rewrite Hl, Hcur in Hc. apply Forall_cons in Hc as [Hc _].
    simpl in Hc. lia. }
  assert ((∃ index, OpSetCurrentIndex index ∈ ops) →
          Forall (λ n : nat, (Z.to_nat (currentIndex st) < n)%nat)
            (slot_lengths st)) as Hyes.
  { intros [[Hr _] Hc]%Hcov. eapply Forall_impl; [exact Hc|].
    simpl. intros n Hn. lia. }
  assert ((∀ index, OpSetCurrentIndex index ∉ ops) →
          slot_lengths st = [0; 0; 0; 0; 0]%nat) as Hnone.
  { intros Hno. by destruct (run_without_SetCurrentIndex _ _ _ _ Hrun Hno). }
  split_and!.
  - apply SetInFlight_is_Some.
  - intros t. apply DestroyLater_is_Some.
  - done.
  - rewrite SetInFlight_is_Some. split.
    + intros Hlt. destruct (calls_SetCurrentIndex_dec ops) as [?|Hno]; [done|].
      apply Hnone in Hno. injection Hno as Hl _. lia.
    + intros H%Hyes. by apply Forall_cons in H as [? _].
  - intros t Ht Hi. rewrite (DestroyLater_is_Some _ _ _ Ht Hi). split.
    + intros [Hlt _]%Forall_cons.
      destruct (calls_SetCurrentIndex_dec ops) as [?|Hno]; [done|].
      apply Hnone in Hno. injection Hno as _ _ Hl _. lia.
    + intros H%Hyes. unfold slot_lengths in H.
      rewrite !Forall_cons in H. rewrite !Forall_cons. tauto.
  - done.
  - intros t Ht [i Hi]. unfold DestroyLater; simpl. rewrite Ht; simpl.
    by rewrite Hi.
Qed.

Lemma current_slot_access_witness :
  ∃ st,
    run sample_Delete [OpSetCurrentIndex 0]
      (TextureCache_new {[1%positive := sample_texture]}) = Some st ∧
    is_Some (SetInFlight 1%positive st) ∧
    SetInFlight 1%positive
      (TextureCache_new {[1%positive := sample_texture]}) = None.
Proof.
  eexists. split; [vm_compute; reflexivity|].
  destruct (current_slot_access sample_Delete
              {[1%positive := sample_texture]} [OpSetCurrentIndex 0]
              _ 1%positive eq_refl) as (_ & _ & _ & H4 & _ & H6 & _).
  split; [|exact H6].
  apply H4. exists 0. apply list_elem_of_singleton. reflexivity.
Defined.

(** ** Alias views *)

Lemma single_slot_cache_reachable :
  run sample_Delete [OpSetCurrentIndex 0; OpSetInFlight 1%positive]
    (TextureCache_new {[1%positive := sample_texture]})
  = Some single_slot_cache.
Proof. vm_compute. reflexivity. Qed.

(** C7, as stated, fails: when [SetCurrentIndex] is called with the slot
    that is already current, the alias view of an object in flight in
    that slot only is reset, although the object is in flight in no slot
    other than the new current one. *)
Lemma alias_reset_only_if_in_other_slot_fails :
  ¬ (∀ st', SetCurrentIndex 0 single_slot_cache = Some st' →
       alias_reset_exactly
         (λ p, in_vacated_slot single_slot_cache p
               ∧ in_other_slot (to_u32 0) single_slot_cache p)
         (objects single_slot_cache) (objects st')).
Proof.
  intros H. specialize (H _ eq_refl). destruct (H 1%positive) as [_ Hn].
  assert (¬ (in_vacated_slot single_slot_cache 1%positive
             ∧ in_other_slot (to_u32 0) single_slot_cache 1%positive))
    as Hnot.
  { intros [_ (i & s & Hi & Hne & _)].
    destruct i as [|i]; [by apply Hne|]. by destruct i. }
  specialize (Hn Hnot). vm_compute in Hn. discriminate Hn.
Qed.

Lemma GetReadOnlyImageView_reset t :
  GetReadOnlyImageView (reset_readOnlyImageView t) = GetImageView t.
Proof. done. Qed.

(** C7, amended. The first effect of [SetCurrentIndex] is to reset the
    read-only alias view of exactly the objects in flight in the slot
    being left, whatever the new slot and whether or not they are in
    flight elsewhere; for these objects [GetReadOnlyImageView] then
    gives the primary view. When the new slot is another one than the
    slot being left, these are the objects in flight in the slot being
    left that are in flight in a slot other than the new one. *)
Theorem SetCurrentIndex_resets_alias index st st' :
  SetCurrentIndex index st = Some st' →
  vacate st = Some (objects st') ∧
  alias_reset_exactly (in_vacated_slot st) (objects st) (objects st') ∧
  (∀ p t, in_vacated_slot st p → objects st' !! p = Some t →
     GetReadOnlyImageView t = GetImageView t) ∧
  (is_u32 (currentIndex st) → to_u32 index ≠ currentIndex st →
   ∀ p, in_vacated_slot st p ↔
        in_vacated_slot st p ∧ in_other_slot (to_u32 index) st p).
Proof.
  intros (objs&?&?&?&?&?&?&?&?&?&?&Hv&_&_&_&_&_&->)%SetCurrentIndex_inv.
  simpl.
  assert (alias_reset_exactly (in_vacated_slot st) (objects st) objs) as Hex.
  { intros p. rewrite (vacate_lookup _ _ p Hv). unfold in_vacated_slot.
    split; intros Hp; [by rewrite decide_True|by rewrite decide_False]. }
  split_and!; [done|done| |].
  - intros p t Hp Ht. destruct (Hex p) as [Hr _]. rewrite (Hr Hp) in Ht.
    destruct (objects st !! p) as [t0|]; simplify_eq/=.
    apply GetReadOnlyImageView_reset.
  - intros [Hcur _] Hne p. split; [|tauto]. intros Hp. split; [done|].
    unfold in_vacated_slot in Hp.
    destruct (inFlightTextures st !! Z.to_nat (currentIndex st))
      as [s|] eqn:Hs; simpl in Hp; [|set_solver].
    exists (Z.to_nat (currentIndex st)), s. split_and!; [done| |done].
    rewrite Z2Nat.id by done. congruence.
Qed.

Lemma SetCurrentIndex_resets_alias_witness :
  ∃ st', SetCurrentIndex 0 sample_cache = Some st' ∧
    alias_reset_exactly (in_vacated_slot sample_cache)
      (objects sample_cache) (objects st').
Proof.
  eexists. split; [vm_compute; reflexivity|].
  exact (proj1 (proj2 (SetCurrentIndex_resets_alias 0 sample_cache _
                         eq_refl))).
Defined.

(** ** SamplerManager *)

Section Sampler_facts.
Context `{SamplerEnv}.

(** A hit returns the memoized handle and changes nothing. *)
Lemma GetSampler_hit cfg tsp sm h :
  samplers sm !! Z.land tsp TSP_Mask = Some h →
  GetSampler cfg tsp sm = Some (h, sm).
Proof. intros Hh. unfold GetSampler. by rewrite Hh. Qed.

(** After a call the table maps the masked descriptor to the handle
    returned, and keeps every entry it had. *)
Lemma GetSampler_table cfg tsp sm sm' h :
  GetSampler cfg tsp sm = Some (h, sm') →
  samplers sm' !! Z.land tsp TSP_Mask = Some h ∧
  ∀ k h0, samplers sm !! k = Some h0 → samplers sm' !! k = Some h0.
Proof.
  unfold GetSampler.
  destruct (samplers sm !! Z.land tsp TSP_Mask) as [h1|] eqn:Hl.
  - intros [= <- <-]. done.
  - destruct (createSamplerUnique _ _) as [[h1 d]|]; simpl; [|done].
    intros [= <- <-]. simpl. split; [apply lookup_insert_eq|].
    intros k h0 Hk. rewrite lookup_insert_ne; [done|congruence].
Qed.

Lemma GetSampler_seq_table calls sm sm' hs k h0 :
  GetSampler_seq calls sm = Some (hs, sm') →
  samplers sm !! k = Some h0 → samplers sm' !! k = Some h0.
Proof.
  revert sm hs. induction calls as [|[cfg tsp] calls IH]; simpl;
    intros sm hs Hrun Hk.
  - by injection Hrun as <- <-.
  - destruct (GetSampler cfg tsp sm) as [[h1 sm1]|] eqn:H1; simpl in Hrun;
      [|done].
    destruct (GetSampler_seq calls sm1) as [[hs2 sm2]|] eqn:H2;
      simpl in Hrun; [|done].
    injection Hrun as <- <-.
    eapply IH; [done|]. by eapply GetSampler_table.
Qed.

(** C3. Once [GetSampler] has returned a handle for a descriptor, every
    later call (whatever calls come in between, under whatever
    configuration, as long as [term] is not called) for a descriptor with
    the same bits under [TSP_Mask] returns that same handle, although
    the other bits may differ, and leaves the manager unchanged. Taking
    the same descriptor twice, repeated calls return the same handle. *)
Theorem GetSampler_memoized cfg1 cfg2 tsp1 tsp2 calls sm sm1 sm2 h hs :
  Z.land tsp1 TSP_Mask = Z.land tsp2 TSP_Mask →
  GetSampler cfg1 tsp1 sm = Some (h, sm1) →
  GetSampler_seq calls sm1 = Some (hs, sm2) →
  GetSampler cfg2 tsp2 sm2 = Some (h, sm2).
Proof.
  intros Hmask H1 Hseq. apply GetSampler_hit. rewrite <- Hmask.
  eapply GetSampler_seq_table; [done|].
  exact (proj1 (GetSampler_table _ _ _ _ _ H1)).
Qed.

End Sampler_facts.

Lemma GetSampler_memoized_witness :
  ∃ h sm2,
    GetSampler_seq [(mkConfig 0 1, 0x6100); (mkConfig 2 16, 0x300)]
      sample_manager = Some ([h; 2%positive], sm2) ∧
    GetSampler (mkConfig 1 4) 0xfff871ff sm2 = Some (h, sm2).
Proof.
  eexists _, _. split; [vm_compute; reflexivity|].
  eapply (GetSampler_memoized (mkConfig 0 1) (mkConfig 1 4)
            0x6100 0xfff871ff [(mkConfig 2 16, 0x300)]
            sample_manager _ _ _ [2%positive]).
  - reflexivity.
  - vm_compute; reflexivity.
  - vm_compute; reflexivity.
Defined.

(** ** UploadToGPU *)

(** C2. [UploadToGPU] with the extent and format of the existing image
    returns with the state untouched: same image handle, nothing
    allocated, nothing trashed. Without image, or with another extent or
    format, it installs the newly allocated image with
    [mipmapped ? log2(max(width,height)) + 1 : 1] levels, and the old
    image, view, memory and staging buffer (when there was an image) are
    at the end of the current slot's trash bins. *)
Theorem UploadToGPU_spec created fmt width height mipmapped mipmapsIncluded
    texture st t :
  objects st !! texture = Some t →
  (is_Some (image t) ∧ extent t = mkExtent2D width height ∧ format t = fmt →
   UploadToGPU created fmt width height mipmapped mipmapsIncluded texture st
   = Some (Done, st)) ∧
  (¬ (is_Some (image t) ∧ extent t = mkExtent2D width height
      ∧ format t = fmt) →
   ∀ n st1, created = Some n → DestroyLater texture st = Some st1 →
   ∃ st' t',
     UploadToGPU created fmt width height mipmapped mipmapsIncluded
       texture st = Some (Done, st') ∧
     objects st' !! texture = Some t' ∧
     image t' = Some (new_image n) ∧
     extent t' = mkExtent2D width height ∧ format t' = fmt ∧
     mipmapLevels t' =
       (if mipmapped then Z.log2 (Z.max width height) + 1 else 1) ∧
     released st' = released st ∧
     (image t = None →
        trashedImages st' = trashedImages st
        ∧ trashedImageViews st' = trashedImageViews st
        ∧ trashedMem st' = trashedMem st
        ∧ trashedBuffers st' = trashedBuffers st) ∧
     (is_Some (image t) →
        let k := Z.to_nat (currentIndex st) in
        trashedImages st' !! k
        = Some (bin_at (trashedImages st) k ++ [image t])
        ∧ trashedImageViews st' !! k
          = Some (bin_at (trashedImageViews st) k ++ [imageView t])
        ∧ trashedMem st' !! k
          = Some (bin_at (trashedMem st) k ++ [allocation t])
        ∧ trashedBuffers st' !! k
          = Some (bin_at (trashedBuffers st) k ++ [stagingBufferData t]))).
Proof.
  intros Ht. unfold UploadToGPU. rewrite Ht. simpl. split.
  - intros (Hi & He & Hf).
    by rewrite !bool_decide_eq_true_2.
  - intros Hdiff n st1 -> Hd.
    assert (bool_decide (is_Some (image t))
            && bool_decide (extent t = mkExtent2D width height)
            && bool_decide (format t = fmt) = false) as ->.
    { apply not_true_iff_false. intros Hb. apply Hdiff.
      apply andb_true_iff in Hb as [Hb H3%bool_decide_eq_true].
      apply andb_true_iff in Hb as [H1%bool_decide_eq_true
                                      H2%bool_decide_eq_true]. done. }
    rewrite Hd. simpl.
    assert (is_Some (objects st1 !! texture)) as [t1 Ht1].
    { apply elem_of_dom. apply DestroyLater_frame in Hd as (_&_&_&_&_&->).
      by apply elem_of_dom_2 in Ht. }
    rewrite Ht1. simpl. eexists _, _. split; [done|]. simpl.
    rewrite lookup_insert_eq. split; [done|]. simpl.
    pose proof (DestroyLater_frame _ _ _ Hd) as (_&_&_&Hrel&_&_).
    split_and!; try done.
    + intros Hi. rewrite (DestroyLater_no_image _ _ _ Ht Hi) in Hd.
      by injection Hd as <-.
    + intros Hi.
      destruct (DestroyLater_image_bins _ _ _ _ Ht Hi Hd)
        as (H1&H2&H3&H4&_). done.
Qed.

Lemma UploadToGPU_spec_witness :
  UploadToGPU None 37 64 32 true false 1%positive sample_cache
  = Some (Done, sample_cache) ∧
  ∃ st' t',
    UploadToGPU (Some sample_new_image) 37 128 64 true false
      1%positive sample_cache = Some (Done, st') ∧
    objects st' !! 1%positive = Some t' ∧
    image t' = Some 20%positive ∧ mipmapLevels t' = 8 ∧
    trashedImages st' !! 1%nat = Some [Some 10%positive].
Proof.
  split.
  - apply (UploadToGPU_spec None 37 64 32 true false 1%positive
             sample_cache sample_texture eq_refl).
    split; [simpl; eauto|]. split; reflexivity.
  - destruct (UploadToGPU_spec (Some sample_new_image) 37 128 64
                true false 1%positive sample_cache sample_texture eq_refl)
      as [_ Hnew].
    destruct (Hnew (ltac:(intros (_ & [=] & _)))
                _ _ eq_refl eq_refl)
      as (st' & t' & Hu & Ht' & Hi & _ & _ & Hm & _ & _ & Hb).
    exists st', t'. split_and!; [exact Hu|exact Ht'|exact Hi|exact Hm|].
    apply Hb. simpl. eauto.
Defined.

(** * Further properties of the cache *)

(** ** SetCurrentIndex: when it returns, and calling it again *)

Lemma to_u32_le z : 0 ≤ z → to_u32 z ≤ z.
Proof. intros Hz. unfold to_u32. apply Z.mod_le; lia. Qed.

Lemma EmptyTrash_again {T} (e : T) cur v v' old :
  0 ≤ cur → EmptyTrash e cur v = Some (v', old) →
  EmptyTrash e cur v' = Some (v', e).
Proof.
  intros Hcur (_ & Hlen & He & _)%EmptyTrash_inv; [|done].
  unfold EmptyTrash. pose proof (to_u32_le (cur + 1) ltac:(lia)).
  destruct (Z.ltb_spec (Z.of_nat (length v')) (to_u32 (cur + 1))); [lia|].
  rewrite He. simpl. by rewrite list_insert_id.
Qed.

Lemma reset_views_empty objs : reset_views ∅ objs = Some objs.
Proof. unfold reset_views. by rewrite elements_empty. Qed.



(** X2. Calling [SetCurrentIndex] a second time with the same index
    changes nothing: it returns the state the first call left, so nothing
    more is released and no alias view is touched. *)
Theorem SetCurrentIndex_twice index st st' :
  SetCurrentIndex index st = Some st' →
  SetCurrentIndex index st' = Some st'.
Proof.
  intros (objs&ift&d0&tiv&d1&ti&d2&tm&d3&tb&d4
          &_&H0&H1&H2&H3&H4&->)%SetCurrentIndex_inv.
  pose proof (to_u32_range index) as [Hr _].
  pose proof (EmptyTrash_inv _ _ _ _ _ Hr H0) as (_ & Hlen & He & _).
  apply EmptyTrash_again in H0, H1, H2, H3, H4; try done.
  unfold SetCurrentIndex, vacate; simpl.
  destruct (Z.ltb_spec (to_u32 index) (Z.of_nat (length ift))); [|lia].
  rewrite He. simpl. rewrite reset_views_empty. simpl.
  rewrite H0; simpl. rewrite H1; simpl. rewrite H2; simpl.
  rewrite H3; simpl. rewrite H4; simpl.
  by rewrite !app_nil_r.
Qed.

Lemma SetCurrentIndex_twice_witness :
  ∃ st', SetCurrentIndex 3 sample_cache = Some st' ∧
         SetCurrentIndex 3 st' = Some st'.
Proof.
  eexists. split; [vm_compute; reflexivity|].
  exact (SetCurrentIndex_twice 3 sample_cache _ eq_refl).
Defined.

(** ** In-flight marks *)

Lemma elem_of_default_lookup (l : list (gset ptr)) (i : nat) (p : ptr) :
  p ∈ default ∅ (l !! i) ↔ ∃ s, l !! i = Some s ∧ p ∈ s.
Proof.
  destruct (l !! i) as [s|]; simpl.
  - split; [eauto|]. by intros (s' & [= <-] & ?).
  - split; [set_solver|]. by intros (s' & [=] & _).
Qed.

Lemma IsInFlight_true_default p st :
  IsInFlight p st = true ↔
  ∃ i : nat, Z.of_nat i ≠ currentIndex st
             ∧ p ∈ default ∅ (inFlightTextures st !! i).
Proof.
  rewrite IsInFlight_true. split.
  - intros (i & s & Hs & Hne & Hin). exists i. split; [done|].
    apply elem_of_default_lookup. eauto.
  - intros (i & Hne & (s & Hs & Hin)%elem_of_default_lookup). eauto.
Qed.

Lemma IsInFlight_ext p st st' :
  (IsInFlight p st = true ↔ IsInFlight p st' = true) →
  IsInFlight p st' = IsInFlight p st.
Proof.
  destruct (IsInFlight p st), (IsInFlight p st'); intros [H1 H2]; auto.
  symmetry. by apply H2.
Qed.

(** X3. After [SetCurrentIndex index] an object is in flight exactly
    when, before the call, it was a member of the in-flight set of some
    slot other than the new current one: the call forgets the marks of
    the slot it enters and keeps all others. *)
Theorem IsInFlight_after_SetCurrentIndex index st st' p :
  SetCurrentIndex index st = Some st' →
  IsInFlight p st' = true ↔
  ∃ (i : nat) (s : gset ptr),
    inFlightTextures st !! i = Some s ∧ Z.of_nat i ≠ to_u32 index ∧ p ∈ s.
Proof.
  intros Hs. pose proof (to_u32_range index) as [Hr _].
  rewrite IsInFlight_true_default, (SetCurrentIndex_currentIndex _ _ _ Hs).
  split.
  - intros (i & Hne & Hin).
    rewrite (SetCurrentIndex_inFlight _ _ _ _ Hs) in Hin.
    case_decide; [set_solver|].
    apply elem_of_default_lookup in Hin as (s & ? & ?). eauto.
  - intros (i & s & Hi & Hne & Hin). exists i. split; [done|].
    rewrite (SetCurrentIndex_inFlight _ _ _ _ Hs).
    rewrite decide_False by lia.
    apply elem_of_default_lookup. eauto.
Qed.

Lemma IsInFlight_after_SetCurrentIndex_witness :
  ∃ st', SetCurrentIndex 0 sample_cache = Some st' ∧
         IsInFlight 1%positive st' = true.
Proof.
  eexists. split; [vm_compute; reflexivity|].
  apply (IsInFlight_after_SetCurrentIndex 0 sample_cache _ 1%positive
           eq_refl).
  exists 1%nat, {[1%positive]}. split; [reflexivity|].
  split; [discriminate|]. apply elem_of_singleton. reflexivity.
Defined.

Lemma SetInFlight_sets texture st st' (i : nat) :
  SetInFlight texture st = Some st' →
  default ∅ (inFlightTextures st' !! i) =
    if decide (i = Z.to_nat (currentIndex st))
    then {[texture]} ∪ default ∅ (inFlightTextures st !! i)
    else default ∅ (inFlightTextures st !! i).
Proof.
  unfold SetInFlight.
  destruct (inFlightTextures st !! Z.to_nat (currentIndex st)) as [s|] eqn:Hs;
    simpl; [|done].
  intros [= <-]. simpl. case_decide as Hi.
  - subst i. rewrite list_lookup_insert_eq by by eapply lookup_lt_Some.
    by rewrite Hs.
  - by rewrite list_lookup_insert_ne.
Qed.

(** X4. [SetInFlight] marks the object in the set of the current slot
    only, and the answer of [IsInFlight] stays what it was for every
    object, the marked one included: a mark counts once another slot has
    become current. *)
Theorem SetInFlight_IsInFlight texture st st' :
  is_u32 (currentIndex st) →
  SetInFlight texture st = Some st' →
  texture ∈ default ∅ (inFlightTextures st'
                         !! Z.to_nat (currentIndex st')) ∧
  ∀ p, IsInFlight p st' = IsInFlight p st.
Proof.
  intros [Hcur _] Hs.
  pose proof (SetInFlight_frame _ _ _ Hs) as [_ Hc]. split.
  - rewrite (SetInFlight_sets _ _ _ _ Hs), Hc, decide_True by done.
    set_solver.
  - intros p. apply IsInFlight_ext.
    rewrite !IsInFlight_true_default, Hc.
    split; intros (i & Hne & Hin); exists i; (split; [done|]).
    + by rewrite (SetInFlight_sets _ _ _ _ Hs), decide_False by lia.
    + rewrite (SetInFlight_sets _ _ _ _ Hs), decide_False in Hin by lia.
      done.
Qed.

Lemma SetInFlight_IsInFlight_witness :
  ∃ st', SetInFlight 2%positive sample_cache = Some st' ∧
         IsInFlight 2%positive st' = IsInFlight 2%positive sample_cache.
Proof.
  eexists. split; [vm_compute; reflexivity|].
  apply (SetInFlight_IsInFlight 2%positive sample_cache _).
  - unfold is_u32. simpl. lia.
  - reflexivity.
Defined.

(** The in-flight sets after a sequence of [SetCurrentIndex] calls: the
    sets of the slots entered are empty, the others are kept. *)
Lemma SetCurrentIndex_seq_inFlight js st st' (i : nat) :
  SetCurrentIndex_seq js st = Some st' →
  default ∅ (inFlightTextures st' !! i) =
    if decide (Exists (λ j, Z.to_nat (to_u32 j) = i) js) then ∅
    else default ∅ (inFlightTextures st !! i).
Proof.
  revert st. induction js as [|j js IH]; intros st Hrun; simpl in Hrun.
  - injection Hrun as <-.
    by destruct (decide (Exists _ [])) as [?%Exists_nil|].
  - destruct (SetCurrentIndex j st) as [st1|] eqn:Hst1; simpl in Hrun;
      [|done].
    rewrite (IH st1 Hrun), (SetCurrentIndex_inFlight _ _ _ _ Hst1).
    destruct (decide (Exists _ js)) as [He|Hne].
    + destruct (decide (Exists _ (j :: js))) as [|Hn]; [done|].
      destruct Hn. by apply Exists_cons_tl.
    + destruct (decide (i = Z.to_nat (to_u32 j))) as [->|Hi].
      * destruct (decide (Exists _ (j :: js))) as [|Hn]; [done|].
        destruct Hn. by apply Exists_cons_hd.
      * destruct (decide (Exists _ (j :: js)))
          as [[?|?]%Exists_cons|]; [congruence|done|done].
Qed.

Lemma SetCurrentIndex_seq_currentIndex js st st' :
  SetCurrentIndex_seq js st = Some st' →
  currentIndex st' = default (currentIndex st) (to_u32 <$> last js).
Proof.
  revert st. induction js as [|j js IH]; simpl; intros st Hrun.
  - by injection Hrun as <-.
  - destruct (SetCurrentIndex j st) as [st1|] eqn:Hst1; simpl in Hrun;
      [|done].
    rewrite (IH st1 Hrun), (SetCurrentIndex_currentIndex _ _ _ Hst1).
    rewrite last_cons. by destruct (last js).
Qed.

Lemma last_ring_slots R k n :
  last (ring_slots R k (S n)) = Some ((k + Z.of_nat (S n)) mod R).
Proof.
  unfold ring_slots. rewrite seq_S, fmap_app. simpl.
  by rewrite last_snoc.
Qed.

(** X5. In a ring of depth [R], a mark set by [SetInFlight] while slot
    [k] is current, on an object marked in no other slot, makes
    [IsInFlight] true during the next [R - 1] slots and false again from
    the moment slot [k] comes round: after [n] further [SetCurrentIndex]
    calls the object is in flight if and only if [0 < n < R]. *)
Theorem mark_lasts_one_rotation (R : Z) (n : nat) st texture st1 :
  0 < R ≤ 2 ^ 31 →
  0 ≤ currentIndex st < R →
  inflight_live st → texture ∈ dom (objects st) →
  (∀ (i : nat) s, inFlightTextures st !! i = Some s → texture ∈ s →
     Z.of_nat i = currentIndex st) →
  SetInFlight texture st = Some st1 →
  ∃ stn,
    SetCurrentIndex_seq (ring_slots R (currentIndex st) n) st1 = Some stn ∧
    (IsInFlight texture stn = true ↔ (0 < n)%nat ∧ Z.of_nat n < R).
Proof.
  intros HR Hk Hlive Hdom Hnone Hs.
  set (k := currentIndex st) in *.
  pose proof (SetInFlight_frame _ _ _ Hs) as [_ Hc].
  destruct (SetCurrentIndex_seq_is_Some (ring_slots R k n) st1)
    as [stn Hstn].
  { intros j (i & _ & ->)%elem_of_ring_slots.
    pose proof (Z.mod_pos_bound (k + Z.of_nat i) R ltac:(lia)).
    rewrite to_u32_small; lia. }
  { rewrite Hc. unfold is_u32. fold k. lia. }
  { apply inflight_live_alt. intros i.
    rewrite (SetInFlight_sets _ _ _ _ Hs).
    assert (dom (objects st1) = dom (objects st)) as ->.
    { revert Hs. unfold SetInFlight.
      destruct (inFlightTextures st !! _); simpl; [|done].
      by intros [= <-]. }
    apply inflight_live_alt with (i := i) in Hlive.
    case_decide; set_solver. }
  exists stn. split; [done|].
  rewrite IsInFlight_true_default.
  assert (∀ i : nat, texture ∈ default ∅ (inFlightTextures st1 !! i)
                     ↔ i = Z.to_nat k) as Hin1.
  { intros i. rewrite (SetInFlight_sets _ _ _ _ Hs). fold k.
    case_decide as Hi; [set_solver|].
    split; [|done]. intros (s & Hl & Hin)%elem_of_default_lookup.
    specialize (Hnone i s Hl Hin). fold k in Hnone. lia. }
  assert (∀ i : nat, texture ∈ default ∅ (inFlightTextures stn !! i)
                     ↔ i = Z.to_nat k ∧ ¬ R ≤ Z.of_nat n) as Hinn.
  { intros i. rewrite (SetCurrentIndex_seq_inFlight _ _ _ _ Hstn).
    rewrite <- (ring_slots_revisit R k n) by done.
    case_decide as He.
    - split; [set_solver|]. intros [-> Hno]. exfalso. apply Hno.
      apply Exists_exists in He as (j & ? & ?). eauto.
    - rewrite Hin1. split; [|tauto]. intros ->. split; [done|].
      intros (j & ? & ?). apply He, Exists_exists. eauto. }
  pose proof (SetCurrentIndex_seq_currentIndex _ _ _ Hstn) as Hcn.
  split.
  - intros (i & Hne & [-> Hlt]%Hinn). split; [|lia].
    destruct n as [|n]; [|lia]. simpl in Hcn. rewrite Hcn, Hc in Hne.
    fold k in Hne. lia.
  - intros [Hpos Hlt]. exists (Z.to_nat k). split; [|apply Hinn; lia].
    destruct n as [|n]; [lia|].
    rewrite Hcn, last_ring_slots. simpl.
    pose proof (Z.mod_pos_bound (k + Z.of_nat (S n)) R ltac:(lia)) as Hm.
    rewrite to_u32_small by lia. rewrite Z2Nat.id by lia.
    intros Heq.
    pose proof (Z.div_mod (k + Z.of_nat (S n)) R ltac:(lia)) as Hdm.
    rewrite <- Heq in Hdm.
    assert (0 < (k + Z.of_nat (S n)) / R) by nia. nia.
Qed.

Lemma mark_lasts_one_rotation_witness :
  ∃ st1, SetInFlight 1%positive sample_cache = Some st1 ∧
  ∃ stn,
    SetCurrentIndex_seq (ring_slots 2 1 1) st1 = Some stn ∧
    (IsInFlight 1%positive stn = true ↔ (0 < 1)%nat ∧ Z.of_nat 1 < 2).
Proof.
  eexists. split; [vm_compute; reflexivity|].
  apply (mark_lasts_one_rotation 2 1 sample_cache 1%positive).
  - lia.
  - simpl. lia.
  - intros [|[|i]] s; simpl; intros [= <-]; set_solver.
  - simpl. set_solver.
  - intros [|[|i]] s; simpl; intros [= <-]; [set_solver|done].
  - vm_compute; reflexivity.
Defined.

(** ** Conservation of resources *)

Lemma concat_replicate_nil {A} n : concat (replicate n (@nil A)) = [].
Proof. induction n; simpl; auto. Qed.

Lemma concat_insert {A} (l : list (list A)) (i : nat) (b : list A) :
  (i < length l)%nat →
  concat (<[i := b]> l) ≡ₚ b ++ concat (<[i := []]> l).
Proof.
  revert i. induction l as [|x l IH]; intros [|i] Hi; simpl in *; try lia.
  - done.
  - rewrite (IH i) by lia. by rewrite Permutation_app_swap_app.
Qed.

Lemma concat_lookup {A} (l : list (list A)) (i : nat) (b : list A) :
  l !! i = Some b → concat l ≡ₚ b ++ concat (<[i := []]> l).
Proof.
  intros Hb. rewrite <- (list_insert_id l i b Hb) at 1.
  apply concat_insert. by eapply lookup_lt_Some.
Qed.

(** What [EmptyTrash] takes out of a trash vector is what it hands back. *)
Lemma EmptyTrash_concat {A} cur (v v' : list (list A)) old :
  EmptyTrash [] cur v = Some (v', old) →
  concat v ≡ₚ old ++ concat v'.
Proof.
  unfold EmptyTrash.
  set (v1 := if _ <? _ then _ else v).
  assert (concat v1 = concat v) as <-.
  { subst v1. case_match eqn:Hlt; [|done].
    apply Z.ltb_lt in Hlt. rewrite resize_ge by lia.
    by rewrite concat_app, concat_replicate_nil, app_nil_r. }
  destruct (v1 !! Z.to_nat cur) as [o|] eqn:Ho; simpl; [|done].
  intros [= <- <-]. by apply concat_lookup.
Qed.

Lemma push_back_at_concat {A} i (x : A) (v v' : list (list A)) :
  push_back_at i x v = Some v' → concat v' ≡ₚ concat v ++ [x].
Proof.
  unfold push_back_at.
  destruct (v !! Z.to_nat i) as [bin|] eqn:Hbin; simpl; [|done].
  intros [= <-]. rewrite concat_insert by by eapply lookup_lt_Some.
  rewrite (concat_lookup _ _ _ Hbin).
  rewrite <- !app_assoc. apply Permutation_app_head, Permutation_app_comm.
Qed.

#[local] Instance destroy_all_Permutation mk :
  Proper ((≡ₚ) ==> (≡ₚ)) (destroy_all mk).
Proof. intros l1 l2 Hl. unfold destroy_all. by apply omap_Permutation. Qed.

Lemma destroy_all_app mk l1 l2 :
  destroy_all mk (l1 ++ l2) = destroy_all mk l1 ++ destroy_all mk l2.
Proof. apply omap_app. Qed.

Lemma Texture_dtor_reset t :
  Texture_dtor (reset_readOnlyImageView t) = Texture_dtor t.
Proof. done. Qed.

Lemma owned_vacate st objs :
  vacate st = Some objs →
  Texture_dtor <$> objs = Texture_dtor <$> objects st.
Proof.
  intros Hv. apply map_eq. intros p.
  rewrite !lookup_fmap, (vacate_lookup _ _ p Hv).
  case_decide; [|done]. by destruct (objects st !! p).
Qed.

Lemma SetCurrentIndex_conserves index st st' :
  SetCurrentIndex index st = Some st' →
  all_resources st' ≡ₚ all_resources st.
Proof.
  intros (objs&ift&d0&tiv&d1&ti&d2&tm&d3&tb&d4
          &Hv&_&H1&H2&H3&H4&->)%SetCurrentIndex_inv.
  apply EmptyTrash_concat in H1, H2, H3, H4.
  unfold all_resources, pending, owned; simpl.
  rewrite (owned_vacate _ _ Hv), H1, H2, H3, H4, !destroy_all_app.
  rewrite <- !app_assoc. apply Permutation_app_head.
  set (O := concat _).
  generalize (destroy_all ResImageView d1) (destroy_all ResImage d2)
    (destroy_all ResMem d3) (destroy_all ResBuffer d4)
    (destroy_all ResImageView (concat tiv))
    (destroy_all ResImage (concat ti)) (destroy_all ResMem (concat tm))
    (destroy_all ResBuffer (concat tb)).
  intros a b c d a' b' c' d'. solve_Permutation.
Qed.

Lemma owned_insert (objs : gmap ptr Texture) p t t' :
  objs !! p = Some t →
  concat (map_to_list (Texture_dtor <$> <[p := t']> objs)).*2
    ++ Texture_dtor t
  ≡ₚ concat (map_to_list (Texture_dtor <$> objs)).*2 ++ Texture_dtor t'.
Proof.
  intros Ht.
  rewrite <- (insert_delete_eq objs p t'), fmap_insert.
  rewrite <- (insert_id objs p t Ht) at 2.
  rewrite <- (insert_delete_eq objs p t), fmap_insert.
  rewrite !map_to_list_insert
    by (by rewrite lookup_fmap, lookup_delete_eq).
  simpl. solve_Permutation.
Qed.

Lemma DestroyLater_conserves texture st st' :
  DestroyLater texture st = Some st' →
  all_resources st' ≡ₚ all_resources st.
Proof.
  intros Hd. destruct (DestroyLater_deref _ _ _ Hd) as [t Ht].
  destruct (image t) as [i|] eqn:Hi.
  - destruct (DestroyLater_image _ _ _ _ Ht (ltac:(eauto)) Hd)
      as (ti&tiv&tm&tb&H1&H2&H3&H4&->).
    apply push_back_at_concat in H1, H2, H3, H4.
    unfold all_resources, pending, owned; simpl.
    apply Permutation_app_head.
    rewrite H1, H2, H3, H4, !destroy_all_app.
    pose proof (owned_insert (objects st) texture t (moved_out t) Ht) as Ho.
    change (Texture_dtor (moved_out t)) with (@nil Resource) in Ho.
    rewrite app_nil_r in Ho. rewrite <- Ho. unfold Texture_dtor.
    set (O := concat _).
    generalize (destroy_all ResImageView [imageView t])
      (destroy_all ResImage [image t]) (destroy_all ResMem [allocation t])
      (destroy_all ResBuffer [stagingBufferData t])
      (destroy_all ResImageView (concat (trashedImageViews st)))
      (destroy_all ResImage (concat (trashedImages st)))
      (destroy_all ResMem (concat (trashedMem st)))
      (destroy_all ResBuffer (concat (trashedBuffers st))).
    intros a b c d a' b' c' d'. solve_Permutation.
  - rewrite (DestroyLater_no_image _ _ _ Ht Hi) in Hd. by injection Hd as <-.
Qed.

Lemma SetInFlight_conserves texture st st' :
  SetInFlight texture st = Some st' → all_resources st' = all_resources st.
Proof.
  unfold SetInFlight. destruct (inFlightTextures st !! _); simpl; [|done].
  by intros [= <-].
Qed.

Lemma run_conserves Delete ops st st' :
  Forall ring_op ops → run Delete ops st = Some st' →
  all_resources st' ≡ₚ all_resources st.
Proof.
  intros Hops. revert st.
  induction Hops as [|o ops Ho Hops IH]; simpl; intros st Hrun.
  - by injection Hrun as <-.
  - destruct (step Delete o st) as [st1|] eqn:Hs; simpl in Hrun; [|done].
    rewrite (IH st1 Hrun).
    destruct o; simpl in Hs, Ho; try done.
    + by eapply SetCurrentIndex_conserves.
    + by rewrite (SetInFlight_conserves _ _ _ Hs).
    + by eapply DestroyLater_conserves.
Qed.

(** X6. Over any sequence of [SetCurrentIndex], [SetInFlight] and
    [DestroyLater] calls the resources are only moved: those released,
    those waiting in the trash and those held by the textures are,
    together, the same as at the start. So nothing is lost, only what
    the state held is ever released, and when the handles are distinct
    to begin with no resource is released twice. *)
Theorem resources_conserved Delete ops st st' :
  Forall ring_op ops → run Delete ops st = Some st' →
  all_resources st' ≡ₚ all_resources st ∧
  (∀ r, r ∈ released st' → r ∈ all_resources st) ∧
  (NoDup (all_resources st) →
   NoDup (released st') ∧
   (∀ r, r ∈ released st' → (r ∉ pending st') ∧ (r ∉ owned st'))).
Proof.
  intros Hops Hrun. pose proof (run_conserves _ _ _ _ Hops Hrun) as Hp.
  split_and!; [done| |].
  - intros r Hr. rewrite <- Hp. unfold all_resources. set_solver.
  - intros Hnd. rewrite <- Hp in Hnd. unfold all_resources in Hnd.
    apply NoDup_app in Hnd as (Hrel & Hdisj & _). split; [done|].
    intros r Hr. specialize (Hdisj r Hr). set_solver.
Qed.

Lemma resources_conserved_witness :
  ∃ st',
    run sample_Delete
      [OpDestroyLater 1%positive; OpSetCurrentIndex 0; OpSetCurrentIndex 1]
      sample_cache = Some st' ∧
    all_resources st' ≡ₚ all_resources sample_cache ∧
    NoDup (released st').
Proof.
  eexists. split; [vm_compute; reflexivity|].
  destruct (resources_conserved sample_Delete
              [OpDestroyLater 1%positive; OpSetCurrentIndex 0;
               OpSetCurrentIndex 1] sample_cache _
              ltac:(repeat constructor) eq_refl) as (H1 & _ & H3).
  split; [exact H1|]. apply H3.
  vm_compute. repeat (constructor; [set_solver|]). constructor.
Defined.

(** ** The trash vectors move together *)

Lemma EmptyTrash_length {T} (e : T) cur v v' old :
  EmptyTrash e cur v = Some (v', old) →
  length v' = if Z.of_nat (length v) <? to_u32 (cur + 1)
              then Z.to_nat (to_u32 (cur + 1)) else length v.
Proof.
  unfold EmptyTrash. case_match.
  - destruct (resize _ _ _ !! _); simpl; [|done]. intros [= <- <-].
    by rewrite length_insert, length_resize.
  - destruct (v !! _); simpl; [|done]. intros [= <- <-].
    by rewrite length_insert.
Qed.

Lemma EmptyTrash_bin_length cur (v v' : list (list (option handle))) old k :
  EmptyTrash [] cur v = Some (v', old) →
  length (bin_at v' k)
  = if decide (k = Z.to_nat cur) then 0%nat else length (bin_at v k).
Proof.
  intros He. unfold bin_at.
  assert (∃ v1, length v ≤ length v1 ∧ v1 !! Z.to_nat cur = Some old
                ∧ v' = <[Z.to_nat cur := []]> v1
                ∧ ∀ i, default [] (v1 !! i) = default [] (v !! i))%nat
    as (v1 & Hl & Ho & -> & Hv1).
  { revert He. unfold EmptyTrash. case_match eqn:Hlt.
    - destruct (resize _ _ _ !! _) as [o|] eqn:Ho; simpl; [|done].
      intros [= <- <-]. apply Z.ltb_lt in Hlt. eexists.
      split_and!; [|exact Ho|done|].
      + rewrite length_resize. lia.
      + intros i. rewrite resize_ge by lia.
        destruct (decide (i < length v)%nat).
        * by rewrite lookup_app_l.
        * rewrite lookup_app_r, (lookup_ge_None_2 v) by lia. simpl.
          destruct (replicate _ _ !! _) as [x|] eqn:Hx; [|done].
          by apply lookup_replicate in Hx as [-> _].
    - destruct (v !! _) as [o|] eqn:Ho; simpl; [|done].
      intros [= <- <-]. by exists v. }
  case_decide as Hk.
  - subst k. by rewrite list_lookup_insert_eq by by eapply lookup_lt_Some.
  - by rewrite list_lookup_insert_ne, Hv1.
Qed.

Lemma push_back_at_bin_length {T} (i : Z) (x : T) (v v' : list (list T))
    (k : nat) :
  push_back_at i x v = Some v' →
  length (default [] (v' !! k))
  = if decide (k = Z.to_nat i) then S (length (default [] (v !! k)))
    else length (default [] (v !! k)).
Proof.
  intros (_ & _ & He & Ho)%push_back_at_Some. case_decide as Hk.
  - subst k. rewrite He. simpl. rewrite length_app. simpl. lia.
  - by rewrite Ho.
Qed.

Lemma aligned_new objs : aligned (TextureCache_new objs).
Proof. split; [done|]. by intros [|k]. Qed.

Lemma step_aligned Delete o st st' :
  aligned st → step Delete o st = Some st' → aligned st'.
Proof.
  intros [Hlen Hbins] Hs.
  destruct o as [index|texture|texture| |tex]; simpl in Hs.
  - apply SetCurrentIndex_inv in Hs
      as (objs&ift&d0&tiv&d1&ti&d2&tm&d3&tb&d4&_&H0&H1&H2&H3&H4&->).
    injection Hlen as E1 E2 E3 E4. split.
    + unfold slot_lengths; simpl.
      rewrite (EmptyTrash_length _ _ _ _ _ H0), (EmptyTrash_length _ _ _ _ _ H1),
        (EmptyTrash_length _ _ _ _ _ H2), (EmptyTrash_length _ _ _ _ _ H3),
        (EmptyTrash_length _ _ _ _ _ H4), E1, E2, E3, E4. done.
    + intros k. simpl.
      rewrite (EmptyTrash_bin_length _ _ _ _ k H1),
        (EmptyTrash_bin_length _ _ _ _ k H2),
        (EmptyTrash_bin_length _ _ _ _ k H3),
        (EmptyTrash_bin_length _ _ _ _ k H4).
      case_decide; [done|apply Hbins].
  - pose proof (SetInFlight_frame _ _ _ Hs) as [Hl _].
    revert Hs. unfold SetInFlight.
    destruct (inFlightTextures st !! _); simpl; [|done]. intros [= <-].
    split; [|done]. unfold slot_lengths in *; simpl in *.
    by rewrite length_insert.
  - destruct (DestroyLater_deref _ _ _ Hs) as [t Ht].
    destruct (image t) as [i|] eqn:Hi.
    + destruct (DestroyLater_image _ _ _ _ Ht (ltac:(eauto)) Hs)
        as (ti&tiv&tm&tb&H1&H2&H3&H4&->).
      split.
      * pose proof (push_back_at_Some _ _ _ _ H1) as (L1&_).
        pose proof (push_back_at_Some _ _ _ _ H2) as (L2&_).
        pose proof (push_back_at_Some _ _ _ _ H3) as (L3&_).
        pose proof (push_back_at_Some _ _ _ _ H4) as (L4&_).
        unfold slot_lengths in *; simpl. by rewrite L1, L2, L3, L4.
      * intros k. unfold bin_at; simpl.
        rewrite (push_back_at_bin_length _ _ _ _ k H1),
          (push_back_at_bin_length _ _ _ _ k H2),
          (push_back_at_bin_length _ _ _ _ k H3),
          (push_back_at_bin_length _ _ _ _ k H4).
        destruct (Hbins k) as (B1 & B2 & B3). unfold bin_at in *.
        case_decide; lia.
    + rewrite (DestroyLater_no_image _ _ _ Ht Hi) in Hs.
      by injection Hs as <-.
  - injection Hs as <-. split.
    + unfold slot_lengths in *; simpl. rewrite !length_fmap. done.
    + intros k. unfold bin_at; simpl. rewrite !list_lookup_fmap.
      destruct (trashedImageViews st !! k), (trashedImages st !! k),
        (trashedMem st !! k), (trashedBuffers st !! k); done.
  - destruct (clearTexture Delete tex st) as [[st1 b]|] eqn:Hc;
      simpl in Hs; [|done].
    injection Hs as <-. revert Hc. unfold clearTexture.
    destruct (objects st !! tex) as [t|]; simpl; [|done].
    destruct (Delete t) as [[t' rel] b']. intros [= <- <-].
    split; [|done]. unfold slot_lengths in *; simpl. by rewrite length_fmap.
Qed.

(** X7. The five per-slot vectors always have the same length, and in
    every slot the four trash bins hold the same number of entries:
    whatever calls are made on a cache that satisfies this (a freshly
    constructed one does), it still holds afterwards. *)
Theorem trash_vectors_aligned Delete ops st st' :
  aligned st → run Delete ops st = Some st' → aligned st'.
Proof.
  revert st. induction ops as [|o ops IH]; simpl; intros st Ha Hrun.
  - by injection Hrun as <-.
  - destruct (step Delete o st) as [st1|] eqn:Hs; simpl in Hrun; [|done].
    eapply IH; [|done]. by eapply step_aligned.
Qed.

Lemma trash_vectors_aligned_witness :
  ∃ st',
    run sample_Delete
      [OpSetCurrentIndex 2; OpDestroyLater 1%positive; OpSetCurrentIndex 0]
      (TextureCache_new {[1%positive := sample_texture]}) = Some st' ∧
    aligned st'.
Proof.
  eexists. split; [vm_compute; reflexivity|].
  apply (trash_vectors_aligned sample_Delete
           [OpSetCurrentIndex 2; OpDestroyLater 1%positive;
            OpSetCurrentIndex 0]
           (TextureCache_new {[1%positive := sample_texture]})).
  - apply aligned_new.
  - vm_compute; reflexivity.
Defined.

(** ** clearTexture *)

(** X8. [clearTexture] takes the texture out of the in-flight set of
    every slot before it calls [Delete], whatever [Delete] answers:
    afterwards [IsInFlight] is false for it and unchanged for every
    other object, and the trash and the current slot are untouched. The
    result is [Delete]'s. *)
Theorem clearTexture_spec Delete tex st st' b :
  clearTexture Delete tex st = Some (st', b) →
  (∀ i : nat, default ∅ (inFlightTextures st' !! i)
              = default ∅ (inFlightTextures st !! i) ∖ {[tex]}) ∧
  IsInFlight tex st' = false ∧
  (∀ p, p ≠ tex → IsInFlight p st' = IsInFlight p st) ∧
  (∃ t, objects st !! tex = Some t ∧ b = (Delete t).2
        ∧ objects st' = <[tex := (Delete t).1.1]> (objects st)
        ∧ released st' = released st ++ (Delete t).1.2) ∧
  trashedImageViews st' = trashedImageViews st ∧
  trashedImages st' = trashedImages st ∧
  trashedMem st' = trashedMem st ∧
  trashedBuffers st' = trashedBuffers st ∧
  currentIndex st' = currentIndex st.
Proof.
  unfold clearTexture.
  destruct (objects st !! tex) as [t|] eqn:Ht; simpl; [|done].
  destruct (Delete t) as [[t' rel] b'] eqn:HD. intros [= <- <-].
  assert (∀ i : nat,
            default ∅ (((λ s : gset ptr, s ∖ {[tex]})
                          <$> inFlightTextures st) !! i)
            = default ∅ (inFlightTextures st !! i) ∖ {[tex]}) as Hsets.
  { intros i. rewrite list_lookup_fmap.
    destruct (inFlightTextures st !! i); simpl; set_solver. }
  split_and!; simpl; try done.
  - apply not_true_iff_false.
    intros (i & _ & Hin)%IsInFlight_true_default. simpl in Hin.
    rewrite Hsets in Hin. set_solver.
  - intros p Hp. apply IsInFlight_ext. rewrite !IsInFlight_true_default.
    simpl. split; intros (i & Hne & Hin); exists i; (split; [done|]).
    + rewrite Hsets. set_solver.
    + rewrite Hsets in Hin. set_solver.
  - exists t. by rewrite HD.
Qed.

Lemma clearTexture_spec_witness :
  ∃ st', clearTexture sample_Delete 1%positive sample_cache
         = Some (st', true) ∧
         IsInFlight 1%positive st' = false.
Proof.
  eexists. split; [vm_compute; reflexivity|].
  exact (proj1 (proj2 (clearTexture_spec sample_Delete 1%positive
                         sample_cache _ true eq_refl))).
Defined.

(** ** DestroyLater defers *)

(** X9. [DestroyLater] releases nothing itself and touches no other
    object; the texture it leaves has no image, view, memory or staging
    buffer and an undefined format, but keeps its extent and its
    read-only alias view, which [GetReadOnlyImageView] goes on returning
    although [GetImageView] is null. [IsInFlight] answers as before. *)
Theorem DestroyLater_defers texture st st' t :
  objects st !! texture = Some t → is_Some (image t) →
  DestroyLater texture st = Some st' →
  released st' = released st ∧
  (∀ p, p ≠ texture → objects st' !! p = objects st !! p) ∧
  (∀ p, IsInFlight p st' = IsInFlight p st) ∧
  ∃ t', objects st' !! texture = Some t' ∧
    GetImage t' = None ∧ GetImageView t' = None ∧
    allocation t' = None ∧ stagingBufferData t' = None ∧
    format t' = eUndefined ∧ getSize t' = getSize t ∧
    GetReadOnlyImageView t' = readOnlyImageView t ∧
    Texture_dtor t' = [].
Proof.
  intros Ht Hi Hd.
  pose proof (DestroyLater_frame _ _ _ Hd) as (Hf&_&Hc&Hr&_&_).
  destruct (DestroyLater_image _ _ _ _ Ht Hi Hd)
    as (ti&tiv&tm&tb&_&_&_&_&->). simpl in *.
  split_and!; [done| | |].
  - intros p Hp. by rewrite lookup_insert_ne.
  - intros p. unfold IsInFlight. simpl. done.
  - exists (moved_out t). rewrite lookup_insert_eq.
    split_and!; try done. unfold GetReadOnlyImageView; simpl.
    by destruct (readOnlyImageView t).
Qed.

Lemma DestroyLater_defers_witness :
  ∃ st' t', DestroyLater 1%positive sample_cache = Some st' ∧
    objects st' !! 1%positive = Some t' ∧
    GetImageView t' = None ∧
    GetReadOnlyImageView t' = Some 14%positive.
Proof.
  eexists.
  destruct (DestroyLater_defers 1%positive sample_cache _ sample_texture
              eq_refl (ex_intro _ 10%positive eq_refl) eq_refl)
    as (_ & _ & _ & t' & H1 & _ & H3 & _ & _ & _ & _ & H8 & _).
  exists t'. split; [reflexivity|]. split; [exact H1|].
  split; [exact H3|exact H8].
Defined.

(** ** After Clear *)

Lemma concat_const_nil {A B} (l : list A) :
  concat ((λ _, @nil B) <$> l) = [].
Proof. induction l; simpl; auto. Qed.

(** X10. [Clear] leaves no resource waiting, keeps the length of every
    per-slot vector and the current slot, so [SetInFlight] is in range
    after it exactly when it was before, and a [SetCurrentIndex] that
    follows releases nothing. *)
Theorem Clear_then st :
  pending (Clear st) = [] ∧
  slot_lengths (Clear st) = slot_lengths st ∧
  currentIndex (Clear st) = currentIndex st ∧
  (∀ p, is_Some (SetInFlight p (Clear st)) ↔ is_Some (SetInFlight p st)) ∧
  (∀ index st', SetCurrentIndex index (Clear st) = Some st' →
     released st' = released (Clear st)).
Proof.
  assert (pending (Clear st) = []) as Hp.
  { unfold pending; simpl. by rewrite !concat_const_nil. }
  destruct (Clear_frame st) as [Hl Hc].
  split_and!; try done.
  - intros p. rewrite !SetInFlight_is_Some, Hc.
    replace (length (inFlightTextures (Clear st)))
      with (length (inFlightTextures st)); [done|].
    simpl. by rewrite length_fmap.
  - intros index st' Hs. rewrite (SetCurrentIndex_released _ _ _ Hs).
    assert (bin_resources (Clear st) (Z.to_nat (to_u32 index)) = []) as ->;
      [|by rewrite app_nil_r].
    unfold bin_resources, bin_at; simpl. rewrite !list_lookup_fmap.
    destruct (trashedImageViews _ !! _), (trashedImages _ !! _),
      (trashedMem _ !! _), (trashedBuffers _ !! _); done.
Qed.

(** * Further properties of the sampler manager *)

(** ** Bits under the mask *)

Lemma small_cases n (k : nat) :
  0 ≤ n < Z.of_nat k → Exists (λ i : nat, n = Z.of_nat i) (seq 0 k).
Proof.
  intros H. apply Exists_exists. exists (Z.to_nat n).
  split; [apply elem_of_seq|]; lia.
Qed.

Ltac eval_testbits :=
  repeat match goal with
    | |- context [Z.testbit (Zpos ?p) ?k] =>
        let b := eval vm_compute in (Z.testbit (Zpos p) k) in
        change (Z.testbit (Zpos p) k) with b
    end.

(** [tsp.full & TSP_Mask] keeps bits 8 to 11 and 13 to 18. *)
Lemma mask_split tsp :
  Z.land tsp TSP_Mask =
  Z.lor (Z.shiftl (Z.land (Z.shiftr tsp 8) 15) 8)
        (Z.shiftl (Z.land (Z.shiftr tsp 13) 63) 13).
Proof.
  apply Z.bits_inj'. intros n Hn.
  rewrite Z.lor_spec, Z.land_spec, !Z.shiftl_spec, !Z.land_spec by lia.
  destruct (Z_lt_le_dec n 19) as [Hlt|Hge].
  - pose proof (small_cases n 19 ltac:(lia)) as Hc. simpl in Hc.
    repeat (apply Exists_cons in Hc as [->|Hc]);
      [..|by apply Exists_nil in Hc];
      cbn [Z.of_nat Pos.of_succ_nat Pos.succ Z.sub Z.add Z.opp Z.pos_sub
           Pos.pred_double Z.succ_double Z.pred_double Z.double];
      repeat (rewrite Z.shiftr_spec by lia);
      try rewrite !(Z.testbit_neg_r _ (Z.neg _)) by lia;
      cbn [Z.add Pos.add Pos.succ];
      eval_testbits;
      rewrite ?andb_true_r, ?andb_false_r, ?orb_false_r, ?orb_false_l;
      reflexivity.
  - rewrite (Z.bits_above_log2 TSP_Mask n), (Z.bits_above_log2 15 (n - 8)),
      (Z.bits_above_log2 63 (n - 13)); try done; simpl; lia.
Qed.

Lemma mask_possible tsp : Z.land tsp TSP_Mask ∈ possible_hashes.
Proof.
  rewrite mask_split. unfold possible_hashes.
  apply list_elem_of_bind. exists (Z.land (Z.shiftr tsp 8) 15). split.
  - apply list_elem_of_bind. exists (Z.land (Z.shiftr tsp 13) 63). split.
    + by apply list_elem_of_singleton.
    + apply elem_of_seqZ. change 63 with (Z.ones 6).
      rewrite Z.land_ones by lia.
      pose proof (Z.mod_pos_bound (Z.shiftr tsp 13) (2 ^ 6) ltac:(lia)). lia.
  - apply elem_of_seqZ. change 15 with (Z.ones 4).
    rewrite Z.land_ones by lia.
    pose proof (Z.mod_pos_bound (Z.shiftr tsp 8) (2 ^ 4) ltac:(lia)). lia.
Qed.

(** A field read at bits of [tsp] that all lie under the mask reads the
    same from [tsp & TSP_Mask]. *)
Lemma field_under_mask tsp s m :
  0 ≤ s →
  (∀ n, 0 ≤ n → Z.testbit m n = true → Z.testbit TSP_Mask (n + s) = true) →
  Z.land (Z.shiftr (Z.land tsp TSP_Mask) s) m = Z.land (Z.shiftr tsp s) m.
Proof.
  intros Hs Hm. apply Z.bits_inj'. intros n Hn.
  rewrite !Z.land_spec, !Z.shiftr_spec, Z.land_spec by lia.
  destruct (Z.testbit m n) eqn:Hb.
  - by rewrite (Hm n Hn Hb), andb_true_r.
  - by rewrite !andb_false_r.
Qed.

Lemma bits_under_mask (k : nat) s m :
  0 ≤ m → Z.log2 m < Z.of_nat k →
  Forall (λ i : nat, Z.testbit m (Z.of_nat i) = true →
                     Z.testbit TSP_Mask (Z.of_nat i + s) = true) (seq 0 k) →
  ∀ n, 0 ≤ n → Z.testbit m n = true → Z.testbit TSP_Mask (n + s) = true.
Proof.
  intros Hm Hlog Hall n Hn Hb.
  destruct (Z_lt_le_dec n (Z.of_nat k)) as [Hlt|Hge].
  - rewrite Forall_forall in Hall.
    specialize (Hall (Z.to_nat n)). rewrite Z2Nat.id in Hall by done.
    apply Hall; [|done]. apply elem_of_seq. lia.
  - rewrite Z.bits_above_log2 in Hb; [done|done|lia].
Qed.

Lemma sample_env_masked_fields : @masked_fields sample_env.
Proof.
  intros tsp. simpl.
  split_and!; apply field_under_mask; try lia.
  - apply (bits_under_mask 4); [done|done|]. repeat constructor; done.
  - apply (bits_under_mask 2); [done|done|]. repeat constructor; done.
  - apply (bits_under_mask 1); [done|done|]. repeat constructor; done.
  - apply (bits_under_mask 1); [done|done|]. repeat constructor; done.
  - apply (bits_under_mask 1); [done|done|]. repeat constructor; done.
  - apply (bits_under_mask 1); [done|done|]. repeat constructor; done.
Qed.

Lemma possible_hashes_size :
  size (list_to_set possible_hashes : gset Z) = 1024%nat.
Proof. vm_compute. reflexivity. Qed.

Lemma possible_hashes_masked :
  Forall (λ k, Z.land k TSP_Mask = k) possible_hashes.
Proof. apply (bool_decide_unpack _). vm_compute. reflexivity. Qed.

Section Sampler_more.
Context `{SamplerEnv}.

Lemma GetSampler_dom cfg tsp sm sm' h :
  GetSampler cfg tsp sm = Some (h, sm') →
  dom (samplers sm') = {[Z.land tsp TSP_Mask]} ∪ dom (samplers sm) ∧
  (size (samplers sm') ≤ S (size (samplers sm)))%nat.
Proof.
  unfold GetSampler.
  destruct (samplers sm !! Z.land tsp TSP_Mask) as [h1|] eqn:Hl.
  - intros [= <- <-]. split; [|lia].
    apply elem_of_dom_2 in Hl. set_solver.
  - destruct (createSamplerUnique _ _) as [[h1 d]|]; simpl; [|done].
    intros [= <- <-]. simpl. split; [by rewrite dom_insert_L|].
    by rewrite map_size_insert_None.
Qed.

Lemma GetSampler_seq_dom calls sm sm' hs :
  GetSampler_seq calls sm = Some (hs, sm') →
  dom (samplers sm') ⊆ list_to_set possible_hashes ∪ dom (samplers sm) ∧
  (size (samplers sm') ≤ length calls + size (samplers sm))%nat ∧
  length hs = length calls.
Proof.
  assert (∀ tsp, Z.land tsp TSP_Mask
                 ∈ (list_to_set possible_hashes : gset Z)) as HP.
  { intros tsp. apply elem_of_list_to_set, mask_possible. }
  revert HP. generalize (list_to_set possible_hashes : gset Z).
  intros P HP.
  revert sm hs. induction calls as [|[cfg tsp] calls IH];
    intros sm hs Hrun; simpl in Hrun.
  - injection Hrun as <- <-. split; [set_solver|done].
  - destruct (GetSampler cfg tsp sm) as [[h1 sm1]|] eqn:H1; simpl in Hrun;
      [|done].
    destruct (GetSampler_seq calls sm1) as [[hs2 sm2]|] eqn:H2;
      simpl in Hrun; [|done].
    injection Hrun as <- <-.
    destruct (IH _ _ H2) as (Hd & Hs & Hl).
    destruct (GetSampler_dom _ _ _ _ _ H1) as [Hd1 Hs1].
    split_and!; [|simpl; lia|simpl; lia].
    rewrite Hd1 in Hd. specialize (HP tsp). set_solver.
Qed.

(** X11. A manager that starts without samplers (as constructed, or
    after [term]) never holds more than 1024 of them, however many
    descriptors are asked for: the memo table has at most one entry per
    value of the ten bits under [TSP_Mask], and at most one per call. *)
Theorem GetSampler_bounded calls sm sm' hs :
  samplers sm = ∅ →
  GetSampler_seq calls sm = Some (hs, sm') →
  (size (samplers sm') ≤ 1024)%nat ∧
  (size (samplers sm') ≤ length calls)%nat ∧
  ∀ k, is_Some (samplers sm' !! k) → Z.land k TSP_Mask = k.
Proof.
  intros He (Hd' & Hs & _)%GetSampler_seq_dom.
  rewrite He, map_size_empty in Hs.
  rewrite He, dom_empty_L, (right_id_L ∅ (∪)) in Hd'.
  split_and!; [|lia|].
  - rewrite <- size_dom, <- possible_hashes_size.
    by apply subseteq_size.
  - intros k Hk%elem_of_dom. apply Hd' in Hk.
    apply elem_of_list_to_set in Hk. revert k Hk.
    apply Forall_forall, possible_hashes_masked.
Qed.

(** X12. When the six bit-fields lie under [TSP_Mask], [GetSampler]
    depends on the descriptor through its masked bits only: descriptors
    that share a memo entry ask for the same creation parameters, and a
    call with either of them returns the same handle and leaves the same
    manager, hit or miss. *)
Theorem GetSampler_masked_only cfg tsp1 tsp2 sm :
  masked_fields →
  Z.land tsp1 TSP_Mask = Z.land tsp2 TSP_Mask →
  sampler_info cfg tsp1 (device sm) = sampler_info cfg tsp2 (device sm) ∧
  GetSampler cfg tsp1 sm = GetSampler cfg tsp2 sm.
Proof.
  intros Hf Hm.
  assert (sampler_info cfg tsp1 (device sm)
          = sampler_info cfg tsp2 (device sm)) as Hi.
  { destruct (Hf tsp1) as (A1&A2&A3&A4&A5&A6).
    destruct (Hf tsp2) as (B1&B2&B3&B4&B5&B6).
    unfold sampler_info.
    rewrite <- A1, <- A2, <- A3, <- A4, <- A5, <- A6, Hm.
    by rewrite B1, B2, B3, B4, B5, B6. }
  split; [done|]. unfold GetSampler. by rewrite Hi, Hm.
Qed.

(** X13. The creation policy: minification uses the magnification
    filter and the mipmap mode follows it; anisotropy is switched on
    only together with linear filtering; [config::TextureFiltering = 1]
    forces nearest filtering (hence no anisotropy) and any value other
    than 0 and 1 forces linear filtering whatever the descriptor says;
    clamping takes precedence over flipping. *)
Theorem sampler_policy cfg tsp d :
  let i := sampler_info cfg tsp d in
  minFilter _ i = magFilter _ i ∧
  (mipmapMode _ i = MipmapMode_eLinear ↔ magFilter _ i = Filter_eLinear) ∧
  (anisotropyEnable _ i = true ↔
   1 < AnisotropicFiltering cfg ∧ SupportsSamplerAnisotropy d = true
   ∧ magFilter _ i = Filter_eLinear) ∧
  (TextureFiltering cfg = 1 →
   magFilter _ i = Filter_eNearest ∧ anisotropyEnable _ i = false) ∧
  (TextureFiltering cfg ≠ 0 → TextureFiltering cfg ≠ 1 →
   magFilter _ i = Filter_eLinear) ∧
  (TextureFiltering cfg = 0 →
   (magFilter _ i = Filter_eNearest ↔ FilterMode tsp = 0)) ∧
  (addressModeU _ i = eMirroredRepeat ↔ ClampU tsp = 0 ∧ FlipU tsp ≠ 0) ∧
  (addressModeV _ i = eMirroredRepeat ↔ ClampV tsp = 0 ∧ FlipV tsp ≠ 0) ∧
  (addressModeU _ i = eRepeat ↔ ClampU tsp = 0 ∧ FlipU tsp = 0) ∧
  (addressModeV _ i = eRepeat ↔ ClampV tsp = 0 ∧ FlipV tsp = 0).
Proof.
  simpl. split_and!.
  - done.
  - by repeat case_bool_decide.
  - rewrite !andb_true_iff, !bool_decide_eq_true. tauto.
  - intros ->. simpl. by rewrite andb_false_r.
  - intros H0 H1. by rewrite !bool_decide_eq_false_2.
  - intros ->. simpl. by case_bool_decide.
  - repeat case_bool_decide; naive_solver.
  - repeat case_bool_decide; naive_solver.
  - repeat case_bool_decide; naive_solver.
  - repeat case_bool_decide; naive_solver.
Qed.

(** X14. [term] empties the memo table, and a second [term] changes
    nothing more; the next [GetSampler] for any descriptor is a miss:
    its handle is the one the device then creates, and it is the only
    entry of the table. *)
Theorem term_forgets cfg tsp sm h sm' :
  GetSampler cfg tsp (term sm) = Some (h, sm') →
  samplers (term sm) = ∅ ∧ term (term sm) = term sm ∧
  createSamplerUnique (sampler_info cfg tsp (device (term sm)))
    (device (term sm)) = Some (h, device sm') ∧
  samplers sm' = {[Z.land tsp TSP_Mask := h]}.
Proof.
  unfold GetSampler. simpl. rewrite lookup_empty.
  destruct (createSamplerUnique _ _) as [[h1 d]|]; simpl; [|done].
  intros [= <- <-]. split_and!; done.
Qed.

End Sampler_more.

Lemma GetSampler_bounded_witness :
  ∃ hs sm',
    GetSampler_seq [(mkConfig 0 1, 0x6100); (mkConfig 2 16, 0x300);
                    (mkConfig 0 1, 0xfff871ff)] sample_manager
    = Some (hs, sm') ∧
    (size (samplers sm') ≤ 1024)%nat.
Proof.
  eexists _, _. split; [vm_compute; reflexivity|].
  exact (proj1 (GetSampler_bounded
                  [(mkConfig 0 1, 0x6100); (mkConfig 2 16, 0x300);
                   (mkConfig 0 1, 0xfff871ff)] sample_manager _ _
                  eq_refl eq_refl)).
Defined.

Lemma GetSampler_masked_only_witness :
  GetSampler (mkConfig 0 4) 0x6100 sample_manager
  = GetSampler (mkConfig 0 4) 0xfff871ff sample_manager.
Proof.
  exact (proj2 (GetSampler_masked_only (mkConfig 0 4) 0x6100 0xfff871ff
                  sample_manager sample_env_masked_fields eq_refl)).
Defined.

Lemma term_forgets_witness :
  ∃ h sm', GetSampler (mkConfig 0 4) 0x6100 (term sample_manager)
           = Some (h, sm') ∧
           samplers sm' = {[Z.land 0x6100 TSP_Mask := h]}.
Proof.
  eexists _, _. split; [vm_compute; reflexivity|].
  exact (proj2 (proj2 (proj2 (term_forgets (mkConfig 0 4) 0x6100
                                sample_manager _ _ eq_refl)))).
Defined.

(** * The game scanner *)

(** ** The order on names *)

Lemma String_compare_refl (s : string) : String.compare s s = Eq.
Proof.
  induction s as [|a s IH]; simpl; [done|].
  unfold Ascii.compare. by rewrite N.compare_refl.
Qed.

Lemma String_compare_Lt_trans (s1 s2 s3 : string) :
  String.compare s1 s2 = Lt → String.compare s2 s3 = Lt →
  String.compare s1 s3 = Lt.
Proof.
  revert s2 s3. induction s1 as [|a s1 IH]; intros [|b s2] [|c s3]; simpl;
    try done.
  destruct (Ascii.compare a b) eqn:Hab; try done;
    destruct (Ascii.compare b c) eqn:Hbc; try done; intros H12 H23.
  - apply Ascii.compare_eq_iff in Hab as ->, Hbc as ->.
    unfold Ascii.compare. rewrite N.compare_refl. by eapply IH.
  - apply Ascii.compare_eq_iff in Hab as ->. by rewrite Hbc.
  - apply Ascii.compare_eq_iff in Hbc as <-. by rewrite Hab.
  - unfold Ascii.compare in *. rewrite N.compare_lt_iff in *.
    assert (Ascii.N_of_ascii a < Ascii.N_of_ascii c)%N as Hac by lia.
    apply N.compare_lt_iff in Hac. by rewrite Hac.
Qed.

Lemma String_ltb_false_iff (s1 s2 : string) :
  String.ltb s1 s2 = false ↔ s1 = s2 ∨ String.ltb s2 s1 = true.
Proof.
  unfold String.ltb. rewrite (String.compare_antisym s1 s2).
  destruct (String.compare s2 s1) eqn:Hc; simpl.
  - apply String.compare_eq_iff in Hc. naive_solver.
  - naive_solver.
  - split; [done|]. intros [->|?]; [|done].
    by rewrite String_compare_refl in Hc.
Qed.

Lemma String_ltb_trans (s1 s2 s3 : string) :
  String.ltb s1 s2 = true → String.ltb s2 s3 = true →
  String.ltb s1 s3 = true.
Proof.
  unfold String.ltb.
  destruct (String.compare s1 s2) eqn:H12; try done.
  destruct (String.compare s2 s3) eqn:H23; try done.
  by rewrite (String_compare_Lt_trans _ _ _ H12 H23).
Qed.

Lemma String_ltb_irrefl (s : string) : String.ltb s s = false.
Proof. unfold String.ltb. by rewrite String_compare_refl. Qed.

Section GameScanner_order.
Import GameScanner.

(** [a < b ≤ c] gives [a < c]. *)
Lemma GameMedia_lt_le a b c :
  GameMedia_lt a b = true → GameMedia_lt c b = false →
  GameMedia_lt a c = true.
Proof.
  unfold GameMedia_lt. intros Hab [Heq|Hbc]%String_ltb_false_iff.
  - by rewrite Heq.
  - by eapply String_ltb_trans.
Qed.

(** [a ≤ b ≤ c] gives [a ≤ c]. *)
Lemma GameMedia_le_le a b c :
  GameMedia_lt b a = false → GameMedia_lt c b = false →
  GameMedia_lt c a = false.
Proof.
  unfold GameMedia_lt.
  intros [Hab|Hab]%String_ltb_false_iff [Hbc|Hbc]%String_ltb_false_iff;
    apply String_ltb_false_iff.
  - left. congruence.
  - right. by rewrite <- Hab.
  - right. by rewrite Hbc.
  - right. by eapply String_ltb_trans.
Qed.

Lemma GameMedia_lt_asym a b :
  GameMedia_lt a b = true → GameMedia_lt b a = false.
Proof.
  unfold GameMedia_lt. intros H. apply String_ltb_false_iff. by right.
Qed.

(** ** Binary search and insertion *)

Lemma upper_bound_loop_range fuel v val first len :
  (first ≤ upper_bound_loop fuel v val first len ≤ first + len)%nat.
Proof.
  revert first len. induction fuel as [|fuel IH]; intros first len;
    cbn [upper_bound_loop].
  - lia.
  - case_decide; [lia|].
    assert (len / 2 < len)%nat by (apply Nat.div_lt; lia).
    destruct (v !! _) as [m|]; [|lia].
    destruct (GameMedia_lt val m).
    + specialize (IH first (len / 2)%nat). lia.
    + specialize (IH (first + len / 2 + 1)%nat (len - len / 2 - 1)%nat).
      lia.
Qed.

(** On a list in order the search returns the position that separates
    the elements not greater than [val] from those greater. *)
Lemma upper_bound_loop_sorted fuel v val first len :
  sorted_by_name v →
  (len ≤ fuel)%nat → (first + len ≤ length v)%nat →
  (∀ (i : nat) a, (i < first)%nat → v !! i = Some a →
     GameMedia_lt val a = false) →
  (∀ (i : nat) a, (first + len ≤ i)%nat → v !! i = Some a →
     GameMedia_lt val a = true) →
  let r := upper_bound_loop fuel v val first len in
  (∀ (i : nat) a, (i < r)%nat → v !! i = Some a →
     GameMedia_lt val a = false) ∧
  (∀ (i : nat) a, (r ≤ i)%nat → v !! i = Some a →
     GameMedia_lt val a = true).
Proof.
  intros Hsorted. revert first len.
  induction fuel as [|fuel IH]; intros first len Hfuel Hlen Hlo Hhi;
    cbn [upper_bound_loop].
  - split; [done|]. intros i a Hi. apply Hhi. lia.
  - case_decide as Hz; [subst len; split; [done|]|].
    { intros i a Hi. apply Hhi. lia. }
    assert (len / 2 < len)%nat as Hhalf by (apply Nat.div_lt; lia).
    destruct (lookup_lt_is_Some_2 v (first + len / 2)%nat) as [m Hm];
      [lia|].
    rewrite Hm. destruct (GameMedia_lt val m) eqn:Hcmp.
    + apply IH; [lia|lia|done|].
      intros i a Hi Ha.
      destruct (decide (i = first + len / 2)%nat) as [->|Hne].
      * congruence.
      * eapply GameMedia_lt_le; [exact Hcmp|].
        apply (Hsorted (first + len / 2)%nat i m a); [lia|done|done].
    + apply IH; [lia|lia| |].
      * intros i a Hi Ha.
        destruct (decide (i = first + len / 2)%nat) as [->|Hne].
        -- congruence.
        -- eapply GameMedia_le_le; [|exact Hcmp].
           apply (Hsorted i (first + len / 2)%nat a m); [lia|done|done].
      * intros i a Hi. apply Hhi. lia.
Qed.

Lemma lookup_vector_insert (r : nat) g v (i : nat) :
  (r ≤ length v)%nat →
  vector_insert r g v !! i =
    if decide (i < r)%nat then v !! i
    else if decide (i = r) then Some g else v !! (i - 1)%nat.
Proof.
  intros Hr. unfold vector_insert.
  destruct (decide (i < r)%nat) as [Hlt|Hge].
  - rewrite lookup_app_l by (rewrite length_take; lia).
    by rewrite lookup_take_lt.
  - rewrite lookup_app_r by (rewrite length_take; lia).
    rewrite length_take, Nat.min_l by lia.
    destruct (decide (i = r)) as [->|Hne].
    + by rewrite Nat.sub_diag.
    + destruct (i - r)%nat as [|k] eqn:Hk; [lia|]. simpl.
      rewrite lookup_drop. f_equal. lia.
Qed.

Lemma vector_insert_Permutation (r : nat) g v :
  vector_insert r g v ≡ₚ g :: v.
Proof.
  unfold vector_insert. rewrite <- Permutation_middle.
  by rewrite take_drop.
Qed.

(** Where binary search puts a game, and what the list is then. *)
Lemma insert_sorted_facts game v :
  sorted_by_name v →
  sorted_by_name (insert_sorted game v) ∧
  insert_sorted game v ≡ₚ game :: v ∧
  ∃ r : nat, (r ≤ length v)%nat ∧
    insert_sorted game v = take r v ++ game :: drop r v ∧
    (∀ a, a ∈ take r v → GameMedia_lt game a = false) ∧
    (∀ b, b ∈ drop r v → GameMedia_lt game b = true).
Proof.
  intros Hsorted. unfold insert_sorted, upper_bound.
  pose proof (upper_bound_loop_range (length v) v game 0 (length v)) as Hr.
  destruct (upper_bound_loop_sorted (length v) v game 0 (length v))
    as [Hlo Hhi]; [done|lia|lia| | |].
  { intros i a Hi. lia. }
  { intros i a Hi Ha. apply lookup_lt_Some in Ha. simpl in Hi. lia. }
  set (r := upper_bound_loop _ _ _ _ _) in *. simpl in Hr.
  split_and!.
  - intros i j a b Hij. rewrite !lookup_vector_insert by lia.
    repeat case_decide; try lia; intros Ha Hb; simplify_eq.
    + by apply (Hsorted i j).
    + by apply (Hlo i).
    + apply (Hsorted i (j - 1)%nat); [lia|done|done].
    + apply GameMedia_lt_asym, (Hhi (j - 1)%nat); [lia|done].
    + apply (Hsorted (i - 1)%nat (j - 1)%nat); [lia|done|done].
  - apply vector_insert_Permutation.
  - exists r. split_and!; [lia|done| |].
    + intros a (i & Ha)%list_elem_of_lookup_1.
      apply lookup_take_Some in Ha as [Ha Hi]. by apply (Hlo i).
    + intros b (i & Hb)%list_elem_of_lookup_1.
      rewrite lookup_drop in Hb. apply (Hhi (r + i)%nat); [lia|done].
Qed.

(** X15. [insert_game] and [insert_arcade_game] add the game and
    nothing else, and keep a list that is in order by name in order; the
    game goes after every entry whose name is not greater than its own,
    so after the entries of the same name, and before all others. *)
Theorem insert_sorted_spec game v :
  sorted_by_name v →
  sorted_by_name (insert_sorted game v) ∧
  insert_sorted game v ≡ₚ game :: v ∧
  ∃ r : nat, (r ≤ length v)%nat ∧
    insert_sorted game v = take r v ++ game :: drop r v ∧
    (∀ a, a ∈ take r v → GameMedia_lt game a = false) ∧
    (∀ b, b ∈ drop r v → GameMedia_lt game b = true).
Proof. apply insert_sorted_facts. Qed.

End GameScanner_order.

Lemma sample_games_sorted : GameScanner.sorted_by_name sample_games.
Proof.
  intros i j a b Hij Ha Hb.
  destruct i as [|[|i]], j as [|[|j]]; simpl in *; simplify_eq;
    try lia; reflexivity.
Qed.

Lemma insert_sorted_spec_witness :
  GameScanner.sorted_by_name (GameScanner.insert_sorted sample_game
                                sample_games) ∧
  GameScanner.insert_sorted sample_game sample_games
  ≡ₚ sample_game :: sample_games.
Proof.
  destruct (insert_sorted_spec sample_game sample_games sample_games_sorted)
    as (H1 & H2 & _).
  split; [exact H1|exact H2].
Defined.

(** ** The directory scan *)

Section GameScanner_scan.
Import GameScanner.
Context `{ScannerEnv}.

Lemma elem_of_insert_sorted g x v :
  x ∈ insert_sorted g v ↔ x = g ∨ x ∈ v.
Proof.
  unfold insert_sorted. rewrite vector_insert_Permutation.
  apply elem_of_cons.
Qed.

Lemma insert_sorted_not_nil g v : insert_sorted g v ≠ [].
Proof.
  intros Hn. assert (g ∈ insert_sorted g v) as Hg
    by (apply elem_of_insert_sorted; by left).
  rewrite Hn in Hg. by apply elem_of_nil in Hg.
Qed.

(** What the second part of the loop body does with a file: nothing,
    or one insertion into one of the two lists. *)
Lemma classify_cases item s :
  classify item s = s
  ∨ (∃ g, game_entry s item g ∧ classify item s = insert_game g s)
  ∨ (∃ g, arcade_entry s item g
          ∧ classify item s = insert_arcade_game g s).
Proof.
  unfold classify, game_entry, arcade_entry.
  case_bool_decide as Hdot; [by left|].
  case_bool_decide as Hzip.
  { destruct (arcade_games s !! _) as [d|] eqn:Hd; [|by left].
    right; right. eexists. split; [|done]. split; [done|].
    left. eauto. }
  case_bool_decide as Hbin.
  { destruct HideLegacyNaomiRoms eqn:Hh; [by left|].
    right; right. eexists. split; [|done]. split; [done|].
    right. eauto. }
  case_bool_decide as Hchd.
  { case_bool_decide as Hgd; [by left|].
    right; left. eexists. split; [|done]. split; [done|].
    split; [done|]. left. eauto. }
  case_bool_decide as Hcdi; [by left|].
  right; left. eexists. split; [|done]. split; [done|]. split; [done|].
  right. destruct (decide (get_file_extension (fi_name item) = "cdi"));
    [by left|right].
  destruct (decide (get_file_extension (fi_name item) = "cue")); [done|].
  destruct Hcdi. done.
Qed.

Lemma count_empty_folder_lists item st :
  game_list (count_empty_folder item st).1 = game_list st.1 ∧
  arcade_game_list (count_empty_folder item st).1 = arcade_game_list st.1 ∧
  arcade_games (count_empty_folder item st).1 = arcade_games st.1 ∧
  arcade_gdroms (count_empty_folder item st).1 = arcade_gdroms st.1.
Proof.
  destruct st as [s e]. unfold count_empty_folder.
  destruct (game_list s) eqn:Hg; [|by rewrite <- Hg].
  case_bool_decide; simpl; by rewrite ?Hg.
Qed.

Lemma scan_item_fst st item :
  (scan_item st item).1 = classify item (count_empty_folder item st).1.
Proof. unfold scan_item. by destruct (count_empty_folder item st). Qed.

(** An invariant of the loop body holds after the loop. *)
Lemma scan_invariant (P : Scanner * string → Prop) items st :
  P st →
  (∀ st item, item ∈ items → P st → P (scan_item st item)) →
  P (foldl scan_item st items).
Proof.
  revert st. induction items as [|item items IH]; simpl; intros st H0 Hstep.
  - done.
  - apply IH.
    + apply Hstep; [by left|done].
    + intros st' item' Hin. apply Hstep. by right.
Qed.

Lemma scan_keeps_sorted (n : nat) items s :
  sorted_by_name (game_list s) → sorted_by_name (arcade_game_list s) →
  let s' := add_game_directory n items s in
  sorted_by_name (game_list s') ∧ sorted_by_name (arcade_game_list s') ∧
  arcade_games s' = arcade_games s ∧ arcade_gdroms s' = arcade_gdroms s.
Proof.
  intros Hg Ha. unfold add_game_directory.
  apply (scan_invariant
           (λ st, sorted_by_name (game_list st.1)
                  ∧ sorted_by_name (arcade_game_list st.1)
                  ∧ arcade_games st.1 = arcade_games s
                  ∧ arcade_gdroms st.1 = arcade_gdroms s)); [done|].
  intros st item _ (Hg' & Ha' & Hm & Hd).
  rewrite scan_item_fst.
  destruct (count_empty_folder_lists item st) as (E1 & E2 & E3 & E4).
  set (s1 := (count_empty_folder item st).1) in *.
  rewrite <- E1 in Hg'. rewrite <- E2 in Ha'.
  rewrite <- E3 in Hm. rewrite <- E4 in Hd.
  destruct (classify_cases item s1) as [->|[(g & _ & ->)|(g & _ & ->)]];
    simpl; [done| |].
  - split_and!; try done. by apply insert_sorted_facts.
  - split_and!; try done. by apply insert_sorted_facts.
Qed.

(** X16. The scan of a directory keeps both lists in order by name,
    wherever it stops, and never changes the arcade tables. *)
Theorem add_game_directory_sorted (n : nat) items s :
  sorted_by_name (game_list s) → sorted_by_name (arcade_game_list s) →
  let s' := add_game_directory n items s in
  sorted_by_name (game_list s') ∧ sorted_by_name (arcade_game_list s') ∧
  arcade_games s' = arcade_games s ∧ arcade_gdroms s' = arcade_gdroms s.
Proof. apply scan_keeps_sorted. Qed.

Lemma scan_entries (n : nat) items s :
  let s' := add_game_directory n items s in
  (∀ g, g ∈ game_list s' →
     g ∈ game_list s ∨ ∃ item, item ∈ items ∧ game_entry s item g) ∧
  (∀ g, g ∈ arcade_game_list s' →
     g ∈ arcade_game_list s ∨ ∃ item, item ∈ items ∧ arcade_entry s item g).
Proof.
  unfold add_game_directory.
  apply (scan_invariant
           (λ st, (arcade_games st.1 = arcade_games s
                   ∧ arcade_gdroms st.1 = arcade_gdroms s)
                  ∧ (∀ g, g ∈ game_list st.1 →
                       g ∈ game_list s
                       ∨ ∃ item, item ∈ items ∧ game_entry s item g)
                  ∧ (∀ g, g ∈ arcade_game_list st.1 →
                       g ∈ arcade_game_list s
                       ∨ ∃ item, item ∈ items ∧ arcade_entry s item g))
           (take n items) (s, EmptyString)).
  - split; [done|]. split; intros g Hg; by left.
  - intros st item Hin%subseteq_take ((Hm & Hd) & Hg & Ha).
    rewrite scan_item_fst.
    destruct (count_empty_folder_lists item st) as (E1 & E2 & E3 & E4).
    set (s1 := (count_empty_folder item st).1) in *.
    rewrite <- E1 in Hg. rewrite <- E2 in Ha.
    rewrite <- E3 in Hm. rewrite <- E4 in Hd.
    destruct (classify_cases item s1)
      as [->|[(g & Hge & ->)|(g & Hae & ->)]]; simpl; [done| |].
    + split_and!; try done.
      intros x [->|Hx]%elem_of_insert_sorted; [|by apply Hg].
      right. exists item. split; [done|].
      unfold game_entry in *. by rewrite <- Hd.
    + split_and!; try done.
      intros x [->|Hx]%elem_of_insert_sorted; [|by apply Ha].
      right. exists item. split; [done|].
      unfold arcade_entry in *. by rewrite <- Hm.
Qed.

(** X17. Every entry the scan adds to [game_list] comes from a disc
    image among the files (extension chd, gdi, cdi or cue, the first two
    only when the name is not that of an arcade gdrom), and every entry
    it adds to [arcade_game_list] from a zip or 7z whose name is in the
    arcade table, or from a bin, lst or dat when legacy roms are not
    hidden; a file whose name starts with "._" never gives an entry. *)
Theorem add_game_directory_entries (n : nat) items s :
  let s' := add_game_directory n items s in
  (∀ g, g ∈ game_list s' →
     g ∈ game_list s ∨ ∃ item, item ∈ items ∧ game_entry s item g) ∧
  (∀ g, g ∈ arcade_game_list s' →
     g ∈ arcade_game_list s ∨ ∃ item, item ∈ items ∧ arcade_entry s item g).
Proof. apply scan_entries. Qed.

Lemma classify_frame item s :
  empty_folders_scanned (classify item s) = empty_folders_scanned s ∧
  content_path_looks_incorrect (classify item s)
  = content_path_looks_incorrect s ∧
  (game_list s ≠ [] → game_list (classify item s) ≠ []) ∧
  (¬ disc_image item → game_list (classify item s) = game_list s).
Proof.
  destruct (classify_cases item s)
    as [->|[(g & Hge & ->)|(g & Hae & ->)]]; simpl; try done.
  split_and!; try done.
  - intros _. apply insert_sorted_not_nil.
  - intros Hnd. destruct Hnd. destruct Hge as (_ & _ & Hext).
    unfold disc_image. simpl in Hext.
    destruct Hext as [[[->| ->] _]|[->| ->]]; set_solver.
Qed.

Lemma count_empty_folder_counter item st :
  let s1 := (count_empty_folder item st).1 in
  (game_list st.1 ≠ [] →
   content_path_looks_incorrect s1 = false
   ∧ empty_folders_scanned s1 = empty_folders_scanned st.1) ∧
  (0 ≤ empty_folders_scanned st.1 < 2 ^ 32 - 1 →
   empty_folders_scanned st.1 ≤ empty_folders_scanned s1
     ≤ empty_folders_scanned st.1 + 1
   ∧ (content_path_looks_incorrect s1 = true →
      content_path_looks_incorrect st.1 = true
      ∨ 1000 < empty_folders_scanned s1)).
Proof.
  destruct st as [s e]. unfold count_empty_folder. simpl.
  destruct (game_list s) eqn:Hg.
  - split; [done|]. intros Hc.
    repeat case_bool_decide; simpl; rewrite ?to_u32_small in * by lia;
      (split; [lia|]); auto.
  - simpl. split; [done|]. intros Hc. split; [lia|done].
Qed.

Lemma scan_counter l st :
  0 ≤ empty_folders_scanned st.1 →
  empty_folders_scanned st.1 + Z.of_nat (length l) < 2 ^ 32 →
  let st' := foldl scan_item st l in
  empty_folders_scanned st.1 ≤ empty_folders_scanned st'.1
    ≤ empty_folders_scanned st.1 + Z.of_nat (length l)
  ∧ (content_path_looks_incorrect st'.1 = true →
     content_path_looks_incorrect st.1 = true
     ∨ 1000 < empty_folders_scanned st'.1).
Proof.
  revert st. induction l as [|item l IH]; intros st H0 Hb; simpl in *.
  - split; [lia|auto].
  - destruct (count_empty_folder_counter item st) as [_ Hc].
    destruct Hc as [Hc1 Hc2]; [lia|].
    destruct (classify_frame item (count_empty_folder item st).1)
      as (F1 & F2 & _).
    rewrite <- F1 in Hc1, Hc2. rewrite <- F2 in Hc2.
    rewrite <- scan_item_fst in Hc1, Hc2.
    destruct (IH (scan_item st item)) as [I1 I2]; [lia|lia|].
    split; [lia|]. intros Hf.
    destruct (I2 Hf) as [Hf1|?]; [|by right].
    destruct (Hc2 Hf1); [by left|right; lia].
Qed.

Lemma scan_with_games l st :
  game_list st.1 ≠ [] → l ≠ [] →
  let st' := foldl scan_item st l in
  game_list st'.1 ≠ [] ∧ content_path_looks_incorrect st'.1 = false
  ∧ empty_folders_scanned st'.1 = empty_folders_scanned st.1.
Proof.
  intros Hg Hl. destruct l as [|item l]; [done|]. simpl.
  assert (∀ st item,
            game_list st.1 ≠ [] →
            game_list (scan_item st item).1 ≠ []
            ∧ content_path_looks_incorrect (scan_item st item).1 = false
            ∧ empty_folders_scanned (scan_item st item).1
              = empty_folders_scanned st.1) as Hstep.
  { intros st0 item0 Hg0. rewrite scan_item_fst.
    destruct (count_empty_folder_counter item0 st0) as [[Hf Hc] _]; [done|].
    destruct (count_empty_folder_lists item0 st0) as (E1 & _).
    destruct (classify_frame item0 (count_empty_folder item0 st0).1)
      as (F1 & F2 & F3 & _).
    rewrite F1, F2. split_and!; [|done|done]. apply F3. by rewrite E1. }
  destruct (Hstep st item Hg) as (G1 & G2 & G3). rewrite <- G3.
  apply (scan_invariant
           (λ st', game_list st'.1 ≠ []
                   ∧ content_path_looks_incorrect st'.1 = false
                   ∧ empty_folders_scanned st'.1
                     = empty_folders_scanned (scan_item st item).1));
    [done|].
  intros st' item' _ (P1 & P2 & P3).
  destruct (Hstep st' item' P1) as (Q1 & Q2 & Q3).
  split_and!; [done|done|congruence].
Qed.

(** X18. The empty-folder count of the scan. Once a game is in
    [game_list], any further file resets [content_path_looks_incorrect]
    and the count stands still. Files that are not disc images (arcade
    roms included) leave [game_list] empty, so the count goes on. The
    count grows by at most one per file, and the flag is raised by the
    scan only with a count above 1000. *)
Theorem empty_folder_heuristic (n : nat) items s :
  let s' := add_game_directory n items s in
  (game_list s ≠ [] → take n items ≠ [] →
   content_path_looks_incorrect s' = false
   ∧ empty_folders_scanned s' = empty_folders_scanned s) ∧
  (game_list s = [] → (∀ item, item ∈ items → ¬ disc_image item) →
   game_list s' = []) ∧
  (0 ≤ empty_folders_scanned s →
   empty_folders_scanned s + Z.of_nat (length items) < 2 ^ 32 →
   empty_folders_scanned s ≤ empty_folders_scanned s'
     ≤ empty_folders_scanned s + Z.of_nat (n `min` length items)
   ∧ (content_path_looks_incorrect s' = true →
      content_path_looks_incorrect s = true
      ∨ 1000 < empty_folders_scanned s')).
Proof.
  unfold add_game_directory. split_and!.
  - intros Hg Hl.
    by destruct (scan_with_games (take n items) (s, EmptyString) Hg Hl)
      as (_ & ? & ?).
  - intros Hg Hnd.
    apply (scan_invariant (λ st, game_list st.1 = [])); [done|].
    intros st item Hin%subseteq_take Hst. rewrite scan_item_fst.
    destruct (classify_frame item (count_empty_folder item st).1)
      as (_ & _ & _ & Hkeep).
    rewrite (Hkeep (Hnd item Hin)).
    by destruct (count_empty_folder_lists item st) as (-> & _).
  - intros H0 Hb.
    pose proof (scan_counter (take n items) (s, EmptyString)) as Hc.
    simpl in Hc. rewrite length_take in Hc. apply Hc; lia.
Qed.

(** ** The whole scan *)



End GameScanner_scan.

(** The scan of the sample directory: the "._" file and the text file
    are ignored, the zip known to the arcade table goes to the arcade
    list under its description, the two disc images are listed in order
    of name; one folder was counted before the first game was found. *)
Example sample_scan :
  let s' := GameScanner.add_game_directory (H := sample_scanner_env) 5
              sample_items sample_scanner in
  GameScanner.name <$> GameScanner.game_list s' = ["Alpha.cdi"; "Gamma.gdi"]
  ∧ GameScanner.name <$> GameScanner.arcade_game_list s'
    = ["mvsc2.zip (Marvel vs. Capcom 2)"]
  ∧ GameScanner.empty_folders_scanned s' = 1
  ∧ GameScanner.content_path_looks_incorrect s' = false.
Proof. vm_compute. done. Qed.

Lemma add_game_directory_sorted_witness :
  GameScanner.sorted_by_name
    (GameScanner.game_list
       (GameScanner.add_game_directory (H := sample_scanner_env) 5
          sample_items sample_scanner)).
Proof.
  assert (GameScanner.sorted_by_name []) as Hnil.
  { intros i j a b _ Ha. by rewrite lookup_nil in Ha. }
  exact (proj1 (add_game_directory_sorted (H := sample_scanner_env) 5
                  sample_items sample_scanner Hnil Hnil)).
Defined.

(** * The framebuffer attachment *)

(** X20. [FramebufferAttachment::Reset] releases the image and then its
    view, when there are any, and nothing else: the stencil view, the
    memory allocation, the staging buffer, the format and the extent
    stay as they were. A second [Reset] releases nothing. *)
Theorem FramebufferAttachment_Reset_spec (fa : FramebufferAttachment.t) :
  let fa' := (FramebufferAttachment.Reset fa).1 in
  let rel := (FramebufferAttachment.Reset fa).2 in
  FramebufferAttachment.GetImage fa' = None ∧
  FramebufferAttachment.GetImageView fa' = None ∧
  FramebufferAttachment.GetStencilView fa'
  = FramebufferAttachment.GetStencilView fa ∧
  FramebufferAttachment.allocation fa' = FramebufferAttachment.allocation fa ∧
  FramebufferAttachment.GetBufferData fa'
  = FramebufferAttachment.GetBufferData fa ∧
  FramebufferAttachment.getExtent fa' = FramebufferAttachment.getExtent fa ∧
  FramebufferAttachment.format fa' = FramebufferAttachment.format fa ∧
  (∀ h, ResImage h ∈ rel ↔ FramebufferAttachment.image fa = Some h) ∧
  (∀ h, ResImageView h ∈ rel ↔
        FramebufferAttachment.imageView fa = Some h) ∧
  (∀ h, (ResMem h ∉ rel) ∧ (ResBuffer h ∉ rel)) ∧
  FramebufferAttachment.Reset fa' = (fa', []).
Proof.
  simpl. unfold FramebufferAttachment.Reset; simpl.
  split_and!; try done; intros h;
    destruct (FramebufferAttachment.image fa) as [i|],
      (FramebufferAttachment.imageView fa) as [v|]; simpl;
    rewrite ?elem_of_cons, ?elem_of_nil; naive_solver.
Qed.
